(** * NL2KQL: the refinement pipeline

    A shallow embedding of the TypeScript sources of the NL2KQL engine:

    - [schema-refiner.ts]   (class [SchemaRefiner])
    - [few-shot-selector.ts] (class [FewShotSelector])
    - [query-refiner.ts]    (class [QueryRefiner])
    - [nl2kql-engine.ts]    (class [NL2KQLEngine])

    JavaScript strings are sequences of UTF-16 code units and are modelled
    as lists of code units ([N]).  Numbers that the code only uses as
    counters are [nat]; scores are integers ([Z]); quotients of integers are
    exact rationals ([Q]), of which the doubles of the source are the
    roundings (the half of an integer score is exact in both).
    The file first gives the definitions, class by class, then the
    theorems. *)

From Stdlib Require Import List Bool Arith NArith ZArith QArith Qminmax Lia.
From Stdlib Require Import Permutation Sorted Lqa.
From Stdlib Require Import String Ascii DecimalString.
Import ListNotations.

Set Implicit Arguments.
Close Scope Q_scope.

(* ================================================================== *)
(** * JavaScript strings *)
(* ================================================================== *)

Module JSString.

(** A string is the list of its UTF-16 code units. *)
Definition jsstring : Type := list N.

(** A string literal of the source, written with ASCII characters. *)
Definition js (s : string) : jsstring :=
  map N_of_ascii (list_ascii_of_string s).

(** The double quote character, code unit 34. *)
Definition dquote : N := 34%N.

(** [a === b] on strings. *)
Fixpoint eqb (a b : jsstring) : bool :=
  match a, b with
  | [], [] => true
  | x :: a', y :: b' => N.eqb x y && eqb a' b'
  | _, _ => false
  end.

(** ECMAScript's WhiteSpace and LineTerminator code points: what
    [String.prototype.trim] strips and what [\s] matches. *)
Definition isWhiteSpace (c : N) : bool :=
  ((0x09 <=? c) && (c <=? 0x0D) || (c =? 0x20) || (c =? 0xA0)
   || (c =? 0x1680) || (0x2000 <=? c) && (c <=? 0x200A)
   || (c =? 0x2028) || (c =? 0x2029) || (c =? 0x202F)
   || (c =? 0x205F) || (c =? 0x3000) || (c =? 0xFEFF))%N.

Definition isUpper (c : N) : bool := ((0x41 <=? c) && (c <=? 0x5A))%N.
Definition isLower (c : N) : bool := ((0x61 <=? c) && (c <=? 0x7A))%N.
Definition isDigit (c : N) : bool := ((0x30 <=? c) && (c <=? 0x39))%N.

(** What [\w] matches: [[A-Za-z0-9_]]. *)
Definition isWordChar (c : N) : bool :=
  isUpper c || isLower c || isDigit c || (c =? 0x5F)%N.

(** Leading elements that satisfy [p], and the rest. *)
Fixpoint takeWhile (p : N -> bool) (s : jsstring) : jsstring :=
  match s with
  | c :: t => if p c then c :: takeWhile p t else []
  | [] => []
  end.

Fixpoint dropWhile (p : N -> bool) (s : jsstring) : jsstring :=
  match s with
  | c :: t => if p c then dropWhile p t else s
  | [] => []
  end.

(** [s.trim()]. *)
Definition trim (s : jsstring) : jsstring :=
  rev (dropWhile isWhiteSpace (rev (dropWhile isWhiteSpace s))).

(** [s.startsWith(p)]. *)
Fixpoint startsWith (s p : jsstring) : bool :=
  match p, s with
  | [], _ => true
  | _ :: _, [] => false
  | a :: p', b :: s' => N.eqb a b && startsWith s' p'
  end.

(** [s.includes(sub)]. *)
Fixpoint includes (s sub : jsstring) : bool :=
  startsWith s sub ||
  match s with
  | [] => false
  | _ :: t => includes t sub
  end.

(** [(s.match(/c/g) || []).length] for a single character [c]. *)
Definition countChar (c : N) (s : jsstring) : nat :=
  List.length (filter (N.eqb c) s).

(** [s.split(sep)] for a single-character separator: never empty,
    [''.split(sep)] is [['']]. *)
Fixpoint split (sep : N) (s : jsstring) : list jsstring :=
  match s with
  | [] => [[]]
  | c :: t =>
      if N.eqb c sep then [] :: split sep t
      else match split sep t with
           | l :: ls => (c :: l) :: ls
           | [] => [[c]]
           end
  end.

(** [lines.join(sep)]. *)
Fixpoint join (sep : jsstring) (ls : list jsstring) : jsstring :=
  match ls with
  | [] => []
  | [l] => l
  | l :: rest => l ++ sep ++ join sep rest
  end.

(** [s.replace(/pat/g, rep)] for a literal, non-empty pattern without
    metacharacters, and a replacement without [$]: the matches are taken
    leftmost first and do not overlap.  [skip] counts the code units of the
    current match that are still to be consumed. *)
Fixpoint replaceFrom (pat rep : jsstring) (skip : nat) (s : jsstring)
  : jsstring :=
  match s with
  | [] => []
  | c :: t =>
      match skip with
      | S k => replaceFrom pat rep k t
      | O =>
          if startsWith s pat
          then rep ++ replaceFrom pat rep (List.length pat - 1) t
          else c :: replaceFrom pat rep 0 t
      end
  end.

Definition replaceAll (pat rep s : jsstring) : jsstring :=
  replaceFrom pat rep 0 s.

(** [array.map((x, index) => f(index, x))]. *)
Fixpoint mapiFrom {A B : Type} (f : nat -> A -> B) (i : nat) (l : list A)
  : list B :=
  match l with
  | [] => []
  | x :: t => f i x :: mapiFrom f (S i) t
  end.

Definition mapi {A B : Type} (f : nat -> A -> B) (l : list A) : list B :=
  mapiFrom f 0 l.

(** [String(n)] for a non-negative integer. *)
Definition decimal (n : nat) : jsstring :=
  js (NilEmpty.string_of_uint (Nat.to_uint n)).

(** [array.includes(x)] on an array of strings. *)
Definition member (x : jsstring) (l : list jsstring) : bool :=
  existsb (eqb x) l.

(** [[...new Set(l)]]: the first occurrence of each string, in order. *)
Fixpoint dedupInto (seen : list jsstring) (l : list jsstring)
  : list jsstring :=
  match l with
  | [] => []
  | x :: t =>
      if member x seen then dedupInto seen t
      else x :: dedupInto (x :: seen) t
  end.

Definition dedup (l : list jsstring) : list jsstring := dedupInto [] l.

(** The matches of the regular expression [/Q([^Q]+)Q/g], where [Q] stands
    for the double quote, quotes included.  The scan keeps the
    body read since the last opening quote ([None] outside a candidate):
    a closing quote after a non-empty body ends a match and is consumed;
    a quote right after a quote cannot close an empty body and is the next
    candidate's opening quote; a candidate still open at the end of the
    string is no match. *)
Fixpoint quotedFrom (open : option jsstring) (s : jsstring)
  : list jsstring :=
  match s with
  | [] => []
  | c :: t =>
      match open with
      | None =>
          if N.eqb c dquote then quotedFrom (Some []) t
          else quotedFrom None t
      | Some body =>
          if N.eqb c dquote then
            match body with
            | [] => quotedFrom (Some []) t
            | _ :: _ => (dquote :: rev (dquote :: body)) :: quotedFrom None t
            end
          else quotedFrom (Some (c :: body)) t
      end
  end.

Definition quotedMatches (s : jsstring) : list jsstring :=
  quotedFrom None s.

(** [m.replace(/Q/g, '')], where [Q] stands for the double quote. *)
Definition stripQuotes (m : jsstring) : jsstring :=
  filter (fun c => negb (N.eqb c dquote)) m.

(** The matches of [/\b[A-Z][a-z]+\b/g].  A match starts at an upper-case
    letter that follows a non-word character (or the start), takes the whole
    run of lower-case letters after it, which must not be empty, and must be
    followed by a non-word character (or the end): a shorter run would be
    followed by a lower-case letter, where there is no word boundary.
    [prevWord] says whether the previous character is a word character;
    [cand] is the candidate read so far, reversed. *)
Fixpoint capitalizedFrom (prevWord : bool) (cand : option jsstring)
  (s : jsstring) : list jsstring :=
  match s with
  | [] =>
      match cand with
      | Some (l :: u :: w) => [rev (l :: u :: w)]
      | _ => []
      end
  | c :: t =>
      match cand with
      | Some w =>
          if isLower c then capitalizedFrom true (Some (c :: w)) t
          else if isWordChar c then capitalizedFrom true None t
          else
            match w with
            | _ :: _ :: _ => rev w :: capitalizedFrom false None t
            | _ => capitalizedFrom false None t
            end
      | None =>
          if negb prevWord && isUpper c
          then capitalizedFrom true (Some [c]) t
          else capitalizedFrom (isWordChar c) None t
      end
  end.

Definition capitalizedMatches (s : jsstring) : list jsstring :=
  capitalizedFrom false None s.

(** ASCII case folding, one code unit at a time. *)
Definition asciiLowerUnit (c : N) : N := if isUpper c then (c + 32)%N else c.
Definition asciiUpperUnit (c : N) : N := if isLower c then (c - 32)%N else c.

(** [s] starts with the ASCII pattern [p], compared as a regular expression
    with the [i] flag compares: a code unit of 128 or more never matches an
    ASCII letter. *)
Fixpoint startsWithCI (s p : jsstring) : bool :=
  match p, s with
  | [], _ => true
  | _ :: _, [] => false
  | a :: p', b :: s' =>
      N.eqb (asciiUpperUnit a) (asciiUpperUnit b) && startsWithCI s' p'
  end.

(** [headClean s]: [s] is not empty and does not start with white space;
    [lastClean s]: [s] is not empty and does not end with white space.
    [Trimmed s]: [s] is empty or both, which is when [trim] leaves [s] as it
    is. *)
Definition headClean (s : jsstring) : Prop :=
  match s with
  | c :: _ => isWhiteSpace c = false
  | [] => False
  end.

Definition lastClean (s : jsstring) : Prop := headClean (rev s).

Definition Trimmed (s : jsstring) : Prop :=
  s = [] \/ (headClean s /\ lastClean s).

End JSString.

Import JSString.

(* ================================================================== *)
(** * What the code takes from the JavaScript runtime *)
(* ================================================================== *)

(** [toLowerCase] is [String.prototype.toLowerCase], Unicode's default case
    conversion of a whole string.  [replaceWord text name closest] is
    [text.replace(new RegExp(`\\b${name}\\b`, 'gi'), closest)], whose
    pattern is built from [name] at run time.  The general theorems below
    hold for every runtime. *)
Class Runtime : Type := {
  toLowerCase : jsstring -> jsstring;
  replaceWord : jsstring -> jsstring -> jsstring -> jsstring
}.

(** The runtime on ASCII text, where [toLowerCase] maps [A-Z] to [a-z];
    it is used to evaluate the code on ASCII inputs.  None of the
    evaluations reaches [replaceWord], which leaves the text as it is
    here. *)
Definition asciiRuntime : Runtime := {|
  toLowerCase := map asciiLowerUnit;
  replaceWord := fun text name closest => text
|}.

(* ================================================================== *)
(** * types/schema.ts *)
(* ================================================================== *)

Module ColumnSchema.
Record t : Type := mk {
  name : jsstring;
  type : jsstring;
  description : option jsstring
}.
End ColumnSchema.

Module TableSchema.
Record t : Type := mk {
  name : jsstring;
  description : option jsstring;
  columns : list ColumnSchema.t;
  domain : option (list jsstring)
}.
End TableSchema.

Module DatabaseSchema.
Record t : Type := mk {
  database : jsstring;
  tables : list TableSchema.t
}.
End DatabaseSchema.

Module RefinedSchema.
Record t : Type := mk {
  tables : list TableSchema.t;
  columns : list ColumnSchema.t;
  relevance : Q
}.
End RefinedSchema.

Module Example.
Record t : Type := mk {
  nlq : jsstring;
  kql : jsstring;
  database : jsstring;
  tags : option (list jsstring)
}.
End Example.

(** A scored item, [{item: T, score: number}]. *)
Record Scored (T S : Type) : Type := mkScored { item : T; score : S }.

(** [array.sort(compare)], a stable sort: [x], which comes before the
    elements of the sorted [l], stays before the first [y] that [compare]
    does not put before it.  [compare x y] is the sign of the comparator's
    result. *)
Fixpoint insertSorted {A : Type} (compare : A -> A -> comparison) (x : A)
  (l : list A) : list A :=
  match l with
  | [] => [x]
  | y :: t =>
      match compare x y with
      | Gt => y :: insertSorted compare x t
      | _ => x :: l
      end
  end.

Definition stableSort {A : Type} (compare : A -> A -> comparison)
  (l : list A) : list A :=
  fold_right (insertSorted compare) [] l.

(** [array.slice(0, k)]. *)
Definition slice0 {A : Type} (k : nat) (l : list A) : list A := firstn k l.

(** A string is truthy when it is not empty. *)
Definition truthy (s : jsstring) : bool :=
  match s with [] => false | _ :: _ => true end.

(** The sum of [f x] over the elements of [l], as [forEach] adds them up. *)
Definition sumOver {A : Type} (f : A -> Z) (l : list A) : Z :=
  fold_left (fun acc x => (acc + f x)%Z) l 0%Z.

(* ================================================================== *)
(** * engine/schema-refiner.ts *)
(* ================================================================== *)

Module SchemaRefiner.
Section WithRuntime.
Context {rt : Runtime}.
Local Open Scope Z_scope.

Definition domainTerms : list jsstring :=
  map js
    [ "security"; "event"; "log"; "authentication"; "authorization";
      "user"; "account"; "login"; "failed"; "success"; "error";
      "process"; "file"; "network"; "connection"; "threat"; "malware";
      "device"; "computer"; "server"; "client"; "ip"; "port";
      "time"; "date"; "hour"; "day"; "week"; "month"; "last"; "ago" ]%string.

(** [extractEntities]: the domain terms found in the lowered question, the
    quoted substrings of the question without their quotes, the capitalized
    words of more than three letters lowered; duplicates removed. *)
Definition extractEntities (nlq : jsstring) : list jsstring :=
  let lowerQuery := toLowerCase nlq in
  let entities := filter (fun term => includes lowerQuery term) domainTerms in
  let entities := entities ++ map stripQuotes (quotedMatches nlq) in
  let entities :=
    entities ++
    map toLowerCase
      (filter (fun word => (3 <? List.length word)%nat)
         (capitalizedMatches nlq)) in
  dedup entities.

Definition tableScore (entities : list jsstring) (table : TableSchema.t) : Z :=
  let tableNameLower := toLowerCase (TableSchema.name table) in
  let score :=
    sumOver (fun entity =>
      if includes tableNameLower entity || includes entity tableNameLower
      then 10 else 0) entities in
  let score :=
    match TableSchema.description table with
    | Some d =>
        if truthy d then
          let descLower := toLowerCase d in
          score + sumOver (fun entity =>
            if includes descLower entity then 5 else 0) entities
        else score
    | None => score
    end in
  let score :=
    match TableSchema.domain table with
    | Some tags =>
        score + sumOver (fun domain =>
          if member (toLowerCase domain) entities then 3 else 0) tags
    | None => score
    end in
  score + sumOver (fun column =>
    let colNameLower := toLowerCase (ColumnSchema.name column) in
    sumOver (fun entity =>
      if includes colNameLower entity then 2 else 0) entities)
    (TableSchema.columns table).

Definition matchTables (entities : list jsstring)
  (tables : list TableSchema.t) : list (Scored TableSchema.t Z) :=
  map (fun table => mkScored table (tableScore entities table)) tables.

Definition columnScore (entities : list jsstring) (column : ColumnSchema.t)
  : Z :=
  let colNameLower := toLowerCase (ColumnSchema.name column) in
  let score :=
    sumOver (fun entity =>
      if includes colNameLower entity || includes entity colNameLower
      then 5 else 0) entities in
  match ColumnSchema.description column with
  | Some d =>
      if truthy d then
        let descLower := toLowerCase d in
        score + sumOver (fun entity =>
          if includes descLower entity then 3 else 0) entities
      else score
  | None => score
  end.

Definition matchColumns (entities : list jsstring)
  (tables : list TableSchema.t) : list (Scored ColumnSchema.t Z) :=
  flat_map (fun table =>
    map (fun column => mkScored column (columnScore entities column))
      (TableSchema.columns table)) tables.

(** The comparator [(a, b) => b.score - a.score]. *)
Definition byScoreDesc {T : Type} (a b : Scored T Z) : comparison :=
  score b - score a ?= 0.

Definition rankByRelevance {T : Type} (matches : list (Scored T Z))
  : list (Scored T Z) :=
  stableSort byScoreDesc (filter (fun m => (0 <? score m)%Z) matches).

Definition selectTopK {T : Type} (ranked : list (Scored T Z)) (k : nat)
  : list (Scored T Z) :=
  slice0 k ranked.

(** [matches[0]?.score || 0]. *)
Definition topScore {T : Type} (matches : list (Scored T Z)) : Z :=
  match matches with
  | m :: _ => score m
  | [] => 0
  end.

Definition computeOverallRelevance
  (tableMatches : list (Scored TableSchema.t Z))
  (columnMatches : list (Scored ColumnSchema.t Z)) : Q :=
  (inject_Z (topScore tableMatches + topScore columnMatches) / 2)%Q.

Definition rankedTables (nlq : jsstring) (fullSchema : DatabaseSchema.t)
  : list (Scored TableSchema.t Z) :=
  rankByRelevance
    (matchTables (extractEntities nlq) (DatabaseSchema.tables fullSchema)).

Definition rankedColumns (nlq : jsstring) (fullSchema : DatabaseSchema.t)
  : list (Scored ColumnSchema.t Z) :=
  rankByRelevance
    (matchColumns (extractEntities nlq) (DatabaseSchema.tables fullSchema)).

Definition refineSchema (nlq : jsstring) (fullSchema : DatabaseSchema.t)
  : RefinedSchema.t :=
  let topTables := selectTopK (rankedTables nlq fullSchema) 5 in
  let topColumns := selectTopK (rankedColumns nlq fullSchema) 20 in
  {| RefinedSchema.tables := map (@item _ _) topTables;
     RefinedSchema.columns := map (@item _ _) topColumns;
     RefinedSchema.relevance :=
       computeOverallRelevance (rankedTables nlq fullSchema)
         (rankedColumns nlq fullSchema) |}.

End WithRuntime.
End SchemaRefiner.

(* ================================================================== *)
(** * engine/few-shot-selector.ts *)
(* ================================================================== *)

Module FewShotSelector.
Section WithRuntime.
Context {rt : Runtime}.

(** [s.split(/\s+/)]: the pieces between the maximal runs of white space;
    a run at either end leaves an empty piece there.  [inRun] says whether
    the previous character belongs to a run. *)
Fixpoint splitRuns (inRun : bool) (s : jsstring) : list jsstring :=
  match s with
  | [] => [[]]
  | c :: t =>
      if isWhiteSpace c then
        if inRun then splitRuns true t else [] :: splitRuns true t
      else
        match splitRuns false t with
        | l :: ls => (c :: l) :: ls
        | [] => [[c]]
        end
  end.

(** [s.replace(/[^\w\s]/g, ' ')]. *)
Definition blankPunctuation (s : jsstring) : jsstring :=
  map (fun c => if isWordChar c || isWhiteSpace c then c else 0x20%N) s.

Definition tokenize (text : jsstring) : list jsstring :=
  filter (fun w => 2 <? List.length w)
    (splitRuns false (blankPunctuation (toLowerCase text))).

(** The ratio of two array lengths. *)
Definition ratio (a b : nat) : Q :=
  (inject_Z (Z.of_nat a) / inject_Z (Z.of_nat b))%Q.

Definition exactMatchBoost (nlq1 nlq2 : jsstring) : Q :=
  if includes (toLowerCase nlq1) (toLowerCase nlq2)
     || includes (toLowerCase nlq2) (toLowerCase nlq1)
  then (3 # 10)%Q else 0%Q.

Definition computeSimilarity (nlq1 nlq2 : jsstring) : Q :=
  let words1 := tokenize nlq1 in
  let words2 := tokenize nlq2 in
  let intersection := filter (fun w => member w words2) words1 in
  let union := dedup (words1 ++ words2) in
  if List.length union =? 0 then 0%Q
  else
    let jaccard := ratio (List.length intersection) (List.length union) in
    Qmin 1 (jaccard + exactMatchBoost nlq1 nlq2)%Q.

(** The comparator [(a, b) => b.score - a.score] on rational scores. *)
Definition byScoreDesc {T : Type} (a b : Scored T Q) : comparison :=
  (score b - score a ?= 0)%Q.

(** [selectExamples] on the corpus [examples] (the selector's field); the
    scored pairs [{example, score}] are [Scored] records. *)
Definition selectExamples (examples : list Example.t) (nlq : jsstring)
  (database : option jsstring) (k : nat) : list Example.t :=
  let candidateExamples :=
    match database with
    | Some d =>
        if truthy d
        then filter (fun ex => JSString.eqb (Example.database ex) d) examples
        else examples
    | None => examples
    end in
  let scoredExamples :=
    map (fun example =>
           mkScored example (computeSimilarity nlq (Example.nlq example)))
      candidateExamples in
  map (@item _ _) (slice0 k (stableSort byScoreDesc scoredExamples)).

Definition addExample (examples : list Example.t) (example : Example.t)
  : list Example.t :=
  examples ++ [example].

(** The similarity as the specification words it: the Jaccard index of
    the two token sets, plus the bonus, at most 1. *)
Definition tokenSet (text : jsstring) : list jsstring :=
  dedup (tokenize text).

Definition jaccardOfSets (nlq1 nlq2 : jsstring) : Q :=
  let set1 := tokenSet nlq1 in
  let set2 := tokenSet nlq2 in
  let intersection := filter (fun w => member w set2) set1 in
  let union := dedup (set1 ++ set2) in
  if List.length union =? 0 then 0%Q
  else ratio (List.length intersection) (List.length union).

Definition similaritySpec (nlq1 nlq2 : jsstring) : Q :=
  if List.length (dedup (tokenSet nlq1 ++ tokenSet nlq2)) =? 0 then 0%Q
  else Qmin 1 (jaccardOfSets nlq1 nlq2 + exactMatchBoost nlq1 nlq2)%Q.

End WithRuntime.

(** A quoted ASCII literal inside a query text. *)
Definition quoted (s : string) : jsstring := dquote :: js s ++ [dquote].

Definition example (nlq : string) (kql : jsstring) (tags : list string)
  : Example.t :=
  Example.mk (js nlq) kql (js "SecurityDatabase") (Some (map js tags)).

(** [initializeDefaultExamples]. *)
Definition defaultExamples : list Example.t :=
  [ example "Show me all security events from the last hour"
      (js "SecurityEvent | where TimeGenerated > ago(1h)")
      ["security"; "time"; "filter"]%string;
    example "Find all failed authentication attempts grouped by user"
      (js "SecurityEvent | where Activity == " ++ quoted "Logon"
       ++ js " and EventResult == " ++ quoted "Failure"
       ++ js " | summarize count() by Account")
      ["security"; "authentication"; "aggregation"]%string;
    example "List all tables in the database"
      (js ".show tables")
      ["metadata"; "tables"]%string;
    example "Show me error logs from the last 24 hours"
      (js "EventLog | where Level == " ++ quoted "Error"
       ++ js " and TimeGenerated > ago(24h)")
      ["logs"; "error"; "time"]%string;
    example "Count the number of unique users who logged in today"
      (js "SecurityEvent | where Activity == " ++ quoted "Logon"
       ++ js " and TimeGenerated > startofday(now()) | summarize dcount(Account)")
      ["security"; "aggregation"; "count"]%string;
    example "Find all processes that were started in the last hour"
      (js "ProcessEvent | where EventType == " ++ quoted "ProcessStart"
       ++ js " and TimeGenerated > ago(1h)")
      ["process"; "time"; "filter"]%string;
    example "Show me network connections to suspicious IP addresses"
      (js "NetworkConnection | where RemoteIP in (ThreatIntelligenceIndicator | where ThreatType == "
       ++ quoted "MaliciousIP" ++ js " | project IPAddress)")
      ["network"; "threat"; "join"]%string;
    example "Get the top 10 most active users by login count"
      (js "SecurityEvent | where Activity == " ++ quoted "Logon"
       ++ js " | summarize count() by Account | top 10 by count_")
      ["security"; "aggregation"; "top"]%string ].

End FewShotSelector.

(* ================================================================== *)
(** * engine/query-refiner.ts *)
(* ================================================================== *)

Module QueryRefiner.

Record RefinementResult : Type := mkResult {
  query : jsstring;
  isValid : bool;
  errors : list jsstring;
  fixes : list jsstring;
  attempts : nat
}.

(** The [schema] argument, [{ tables: string[], columns: string[] }]. *)
Record SchemaNames : Type := mkNames {
  tables : list jsstring;
  columns : list jsstring
}.

Definition maxAttempts : nat := 3.

Definition newline : N := 10%N.
Definition lparen : N := 40%N.
Definition rparen : N := 41%N.
Definition lbracket : N := 91%N.
Definition rbracket : N := 93%N.
Definition squote : N := 39%N.
Definition pipe : N := 124%N.

(** [line && !line.startsWith('|') && !line.startsWith('//') &&
    !line.startsWith('.')]. *)
Definition lacksPipe (line : jsstring) : bool :=
  truthy line && negb (startsWith line (js "|"))
  && negb (startsWith line (js "//")) && negb (startsWith line (js ".")).

(** [errors.push(e)] when [cond] holds. *)
Definition pushIf (cond : bool) (e : jsstring) (errors : list jsstring)
  : list jsstring :=
  if cond then errors ++ [e] else errors.

(** The loop [for (let i = 1; i < lines.length; i++)] of [validateSyntax]. *)
Definition pipeErrors (lines : list jsstring) : list jsstring :=
  List.concat
    (mapiFrom
       (fun i l =>
          if lacksPipe (trim l)
          then [js "Missing pipe operator at line " ++ decimal (i + 1)]
          else [])
       1 (tl lines)).

Definition validateSyntax (kql : jsstring) : list jsstring :=
  let errors := [] in
  let openParens := countChar lparen kql in
  let closeParens := countChar rparen kql in
  let errors :=
    pushIf (negb (openParens =? closeParens))
      (js "Unbalanced parentheses") errors in
  let openBrackets := countChar lbracket kql in
  let closeBrackets := countChar rbracket kql in
  let errors :=
    pushIf (negb (openBrackets =? closeBrackets))
      (js "Unbalanced brackets") errors in
  let singleQuotes := countChar squote kql in
  let doubleQuotes := countChar dquote kql in
  let errors :=
    pushIf (negb (singleQuotes mod 2 =? 0))
      (js "Unbalanced single quotes") errors in
  let errors :=
    pushIf (negb (doubleQuotes mod 2 =? 0))
      (js "Unbalanced double quotes") errors in
  let errors :=
    pushIf (includes kql (js "===") || includes kql (js "!=="))
      (js "Use == or != instead of === or !==") errors in
  let lines := filter (fun l => truthy (trim l)) (split newline kql) in
  errors ++ pipeErrors lines.

(** The callback of [lines.map] in [fixSyntaxErrors]. *)
Definition fixLine (index : nat) (line : jsstring) : jsstring :=
  if index =? 0 then line
  else
    let trimmed := trim line in
    if lacksPipe trimmed then js "| " ++ trimmed else line.

(** [fixSyntaxErrors]; its [errors] argument is not read. *)
Definition fixSyntaxErrors (kql : jsstring) (errors : list jsstring)
  : jsstring :=
  let fixed := kql in
  let fixed := replaceAll (js "===") (js "==") fixed in
  let fixed := replaceAll (js "!==") (js "!=") fixed in
  let openParens := countChar lparen fixed in
  let closeParens := countChar rparen fixed in
  let fixed :=
    if closeParens <? openParens
    then fixed ++ repeat rparen (openParens - closeParens) else fixed in
  let openBrackets := countChar lbracket fixed in
  let closeBrackets := countChar rbracket fixed in
  let fixed :=
    if closeBrackets <? openBrackets
    then fixed ++ repeat rbracket (openBrackets - closeBrackets)
    else fixed in
  let singleQuotes := countChar squote fixed in
  let fixed :=
    if negb (singleQuotes mod 2 =? 0) then fixed ++ [squote] else fixed in
  let doubleQuotes := countChar dquote fixed in
  let fixed :=
    if negb (doubleQuotes mod 2 =? 0) then fixed ++ [dquote] else fixed in
  let lines := split newline fixed in
  let fixedLines := mapi fixLine lines in
  join [newline] fixedLines.

(** The first match of [/(\b\w+)\s*\|\s*where/i] that starts at the head
    of [s], a word character after a word boundary: its group 1.  The word
    run and the runs of white space are taken whole, a shorter one would
    be followed by a character that the rest of the pattern cannot match. *)
Definition tablePatternAt (s : jsstring) : option jsstring :=
  let word := takeWhile isWordChar s in
  match dropWhile isWhiteSpace (dropWhile isWordChar s) with
  | c :: rest =>
      if N.eqb c pipe && startsWithCI (dropWhile isWhiteSpace rest) (js "where")
      then Some word else None
  | [] => None
  end.

(** [kql.match(tablePattern)]: the leftmost match. *)
Fixpoint tableMatchFrom (prevWord : bool) (s : jsstring) : option jsstring :=
  match s with
  | [] => None
  | c :: t =>
      if negb prevWord && isWordChar c then
        match tablePatternAt s with
        | Some word => Some word
        | None => tableMatchFrom true t
        end
      else tableMatchFrom (isWordChar c) t
  end.

(** The alternatives of the column pattern's second group, in its order. *)
Definition operators : list jsstring :=
  map js [ "=="; "!="; ">"; "<"; ">="; "<=";
           "contains"; "startswith"; "endswith" ]%string.

(** The length of the first alternative that matches at the head of [s]. *)
Definition operatorAt (s : jsstring) : option nat :=
  option_map (@List.length N) (find (fun op => startsWithCI s op) operators).

(** A match of [/(\b\w+)\s*(==|!=|>|<|>=|<=|contains|startswith|endswith)/gi]
    at the head of [s] whose group 1 has at most [k] characters, the longest
    first, as backtracking tries them: group 1 and the length of the match. *)
Fixpoint columnPatternUpTo (k : nat) (s : jsstring) : option (jsstring * nat) :=
  match k with
  | O => None
  | S k' =>
      let rest := skipn k s in
      let spaces := List.length (takeWhile isWhiteSpace rest) in
      match operatorAt (skipn spaces rest) with
      | Some m => Some (firstn k s, k + spaces + m)
      | None => columnPatternUpTo k' s
      end
  end.

Definition columnPatternAt (s : jsstring) : option (jsstring * nat) :=
  columnPatternUpTo (List.length (takeWhile isWordChar s)) s.

(** The successive results of [columnPattern.exec(kql)]: group 1 of each
    match.  [skip] counts the characters of the last match that are still
    to be passed, up to the pattern's [lastIndex]. *)
Fixpoint columnMatchesFrom (prevWord : bool) (skip : nat) (s : jsstring)
  : list jsstring :=
  match s with
  | [] => []
  | c :: t =>
      match skip with
      | S k => columnMatchesFrom (isWordChar c) k t
      | O =>
          if negb prevWord && isWordChar c then
            match columnPatternAt s with
            | Some (word, len) => word :: columnMatchesFrom true (len - 1) t
            | None => columnMatchesFrom true 0 t
            end
          else columnMatchesFrom (isWordChar c) 0 t
      end
  end.

Definition keywords : list jsstring :=
  map js [ "where"; "summarize"; "project"; "extend"; "join"; "union";
           "count"; "ago"; "now"; "timegenerated"; "startofday";
           "endofday" ]%string.

Section WithRuntime.
Context {rt : Runtime}.

(** [names.some(n => n.toLowerCase() === name.toLowerCase())]. *)
Definition knows (names : list jsstring) (name : jsstring) : bool :=
  existsb (fun n => JSString.eqb (toLowerCase n) (toLowerCase name)) names.

Definition tableWarnings (kql : jsstring) (schema : SchemaNames)
  : list jsstring :=
  match tableMatchFrom false kql with
  | Some tableName =>
      if knows (tables schema) tableName then []
      else [js "Table " ++ [dquote] ++ tableName ++ [dquote]
            ++ js " not in provided schema (may still be valid)"]
  | None => []
  end.

(** The body of the [while] loop over the column matches: the set
    [checkedColumns] and the warnings so far. *)
Definition checkColumn (schema : SchemaNames)
  (state : list jsstring * list jsstring) (columnName : jsstring)
  : list jsstring * list jsstring :=
  let (checkedColumns, warnings) := state in
  if member (toLowerCase columnName) checkedColumns then state
  else
    let checkedColumns := checkedColumns ++ [toLowerCase columnName] in
    if negb (member (toLowerCase columnName) keywords)
       && (0 <? List.length (columns schema))
       && negb (knows (columns schema) columnName)
    then (checkedColumns,
          warnings ++
          [js "Column " ++ [dquote] ++ columnName ++ [dquote]
           ++ js " not in provided schema (may still be valid)"])
    else (checkedColumns, warnings).

(** The warnings that [validateSemantics] collects. *)
Definition semanticWarnings (kql : jsstring) (schema : SchemaNames)
  : list jsstring :=
  snd (fold_left (checkColumn schema) (columnMatchesFrom false 0 kql)
         ([], tableWarnings kql schema)).

(** [validateSemantics]: the warnings are collected and dropped, the
    result is the empty array on both paths. *)
Definition validateSemantics (kql : jsstring) (schema : SchemaNames)
  : list jsstring :=
  if List.length (tables schema) =? 0 then []
  else
    let warnings := semanticWarnings kql schema in
    [].

Definition findClosestMatch (target : jsstring) (candidates : list jsstring)
  : option jsstring :=
  let targetLower := toLowerCase target in
  fst
    (fold_left
       (fun (best : option jsstring * Q) candidate =>
          let (bestMatch, bestScore) := best in
          let candidateLower := toLowerCase candidate in
          if JSString.eqb candidateLower targetLower then (Some candidate, 1%Q)
          else if includes candidateLower targetLower
                  || includes targetLower candidateLower
          then
            let score :=
              (inject_Z (Z.of_nat (Nat.min (List.length candidateLower)
                                     (List.length targetLower)))
               / inject_Z (Z.of_nat (Nat.max (List.length candidateLower)
                                       (List.length targetLower))))%Q in
            if negb (Qle_bool score bestScore) then (Some candidate, score)
            else best
          else best)
       candidates (None, 0%Q)).

(** One of the two repairs of [fixSemanticErrors]: when [error] names a
    [kind] (Table or Column) that was not found, its first quoted name is
    replaced by the closest of [names]. *)
Definition fixName (kind : jsstring) (names : list jsstring)
  (error fixed : jsstring) : jsstring :=
  if includes error kind && includes error (js "not found") then
    match quotedMatches error with
    | m :: _ =>
        let invalid := stripQuotes m in
        match findClosestMatch invalid names with
        | Some closest =>
            if truthy closest then replaceWord fixed invalid closest
            else fixed
        | None => fixed
        end
    | [] => fixed
    end
  else fixed.

Definition fixSemanticErrors (kql : jsstring) (errors : list jsstring)
  (schema : SchemaNames) : jsstring :=
  fold_left
    (fun fixed error =>
       fixName (js "Column") (columns schema) error
         (fixName (js "Table") (tables schema) error fixed))
    errors kql.

(** The [while (attempts < this.maxAttempts)] loop of [refineQuery].
    [budget] is [maxAttempts - attempts]: every turn of the loop either
    returns or adds one to [attempts], and the loop is left when the budget
    is used up. *)
Fixpoint refineLoop (budget : nat) (schema : option SchemaNames)
  (query : jsstring) (attempts : nat) (errors fixes : list jsstring)
  : RefinementResult :=
  match budget with
  | O => mkResult query (List.length errors =? 0) errors fixes attempts
  | S budget' =>
      let syntaxErrors := validateSyntax query in
      if 0 <? List.length syntaxErrors then
        refineLoop budget' schema
          (fixSyntaxErrors query syntaxErrors)
          (attempts + 1)
          (errors ++ syntaxErrors)
          (fixes ++ [js "Fixed syntax errors: " ++ join (js ", ") syntaxErrors])
      else
        match schema with
        | Some names =>
            let semanticErrors := validateSemantics query names in
            if 0 <? List.length semanticErrors then
              refineLoop budget' schema
                (fixSemanticErrors query semanticErrors names)
                (attempts + 1)
                (errors ++ semanticErrors)
                (fixes ++ [js "Fixed semantic errors: "
                           ++ join (js ", ") semanticErrors])
            else mkResult query true [] fixes attempts
        | None => mkResult query true [] fixes attempts
        end
  end.

Definition refineQuery (kql : jsstring) (schema : option SchemaNames)
  : RefinementResult :=
  refineLoop maxAttempts schema (trim kql) 0 [] [].

End WithRuntime.
End QueryRefiner.

(* ================================================================== *)
(** * types/nl2kql.ts and engine/nl2kql-engine.ts *)
(* ================================================================== *)

Module NL2KQLEngine.

Record NL2KQLRequest : Type := mkRequest {
  query : jsstring;
  database : option jsstring;
  cluster : option jsstring
}.

Record Metadata : Type := mkMetadata {
  tokensUsed : option nat;
  responseTime : option Z;
  confidence : option Q
}.

Record NL2KQLResponse : Type := mkResponse {
  success : bool;
  kql : option jsstring;
  error : option jsstring;
  refinedSchema : option QueryRefiner.SchemaNames;
  examplesUsed : option nat;
  refinements : option nat;
  metadata : option Metadata
}.

(** [LLMResponse] of llm-client.ts. *)
Record LLMResponse : Type := mkLLMResponse {
  content : jsstring;
  llmTokensUsed : option nat;
  finishReason : option jsstring
}.

(** A thrown value, as the [catch] clause of [convert] reads it: an
    instance of [Error] with its [message], or any other value with what
    [String(error)] gives. *)
Inductive thrown : Type :=
| ErrorInstance (message : jsstring)
| OtherValue (asString : jsstring).

(** [error instanceof Error ? error.message : String(error)]. *)
Definition errorText (e : thrown) : jsstring :=
  match e with
  | ErrorInstance message => message
  | OtherValue asString => asString
  end.

(** The outcome of a call: it returns a value or throws. *)
Inductive outcome (A : Type) : Type :=
| Returns (a : A)
| Throws (e : thrown).
Arguments Returns {A} a.
Arguments Throws {A} e.

(** The clock: [clock i] is what the call number [i] of [Date.now()]
    returns, [reads] counts the calls made so far. *)
Record World : Type := mkWorld {
  clock : nat -> Z;
  reads : nat
}.

Definition tick (w : World) : World := mkWorld (clock w) (S (reads w)).

(** Computations that read the clock and may throw. *)
Definition M (A : Type) : Type := World -> outcome A * World.

Definition ret {A : Type} (a : A) : M A := fun w => (Returns a, w).

Definition bind {A B : Type} (c : M A) (k : A -> M B) : M B :=
  fun w =>
    match c w with
    | (Returns a, w') => k a w'
    | (Throws e, w') => (Throws e, w')
    end.

Definition call {A : Type} (o : outcome A) : M A := fun w => (o, w).

Definition dateNow : M Z := fun w => (Returns (clock w (reads w)), tick w).

(** [try { body } catch (error) { handler }]. *)
Definition tryCatch {A : Type} (body : M A) (handler : thrown -> M A) : M A :=
  fun w =>
    match body w with
    | (Returns a, w') => (Returns a, w')
    | (Throws e, w') => handler e w'
    end.

Declare Scope engine_scope.
Delimit Scope engine_scope with engine.
Notation "x <- c ;; k" := (bind c (fun x => k))
  (at level 61, c at next level, right associativity) : engine_scope.

(** The engine's fields.  The three components and the client are objects
    whose methods are called inside the [try] block; any of the calls may
    throw.  [generateKQL] is awaited: a rejected promise throws there. *)
Record Engine : Type := mkEngine {
  schemaRefiner : jsstring -> DatabaseSchema.t -> outcome RefinedSchema.t;
  fewShotSelector :
    jsstring -> option jsstring -> nat -> outcome (list Example.t);
  queryRefiner :
    jsstring -> option QueryRefiner.SchemaNames ->
    outcome QueryRefiner.RefinementResult;
  llmClient :
    jsstring -> QueryRefiner.SchemaNames -> list (jsstring * jsstring) ->
    outcome LLMResponse;
  defaultSchema : DatabaseSchema.t
}.

(** [{ tables: refinedSchema.tables.map(t => t.name),
       columns: refinedSchema.columns.map(c => c.name) }]. *)
Definition namesOf (refined : RefinedSchema.t) : QueryRefiner.SchemaNames :=
  QueryRefiner.mkNames
    (map TableSchema.name (RefinedSchema.tables refined))
    (map ColumnSchema.name (RefinedSchema.columns refined)).

(** The object returned by the [catch] clause. *)
Definition failure (message : jsstring) (elapsed : Z) : NL2KQLResponse :=
  {| success := false;
     kql := None;
     error := Some message;
     refinedSchema := None;
     examplesUsed := None;
     refinements := None;
     metadata := Some (mkMetadata None (Some elapsed) None) |}.

Definition convert (engine : Engine) (request : NL2KQLRequest)
  : M NL2KQLResponse :=
  (startTime <- dateNow ;;
   tryCatch
     (refined <- call (schemaRefiner engine (query request)
                         (defaultSchema engine)) ;;
      examples <- call (fewShotSelector engine (query request)
                          (database request) 3) ;;
      llmResponse <- call (llmClient engine (query request) (namesOf refined)
                             (map (fun ex => (Example.nlq ex, Example.kql ex))
                                examples)) ;;
      refinementResult <- call (queryRefiner engine (content llmResponse)
                                  (Some (namesOf refined))) ;;
      now <- dateNow ;;
      ret {| success := QueryRefiner.isValid refinementResult;
             kql := Some (QueryRefiner.query refinementResult);
             error := None;
             refinedSchema := Some (namesOf refined);
             examplesUsed := Some (List.length examples);
             refinements := Some (QueryRefiner.attempts refinementResult);
             metadata :=
               Some (mkMetadata (llmTokensUsed llmResponse)
                       (Some (now - startTime)%Z)
                       (Some (if QueryRefiner.isValid refinementResult
                              then (9 # 10)%Q else (7 # 10)%Q))) |})
     (fun error =>
        now <- dateNow ;;
        ret (failure (errorText error) (now - startTime)%Z)))%engine.

(** One of the first three steps of [convert] throws [error]: the schema
    reduction, or after it the example selection, or after both the
    generation call. *)
Inductive PipelineThrows (engine : Engine) (request : NL2KQLRequest)
  (error : thrown) : Prop :=
| ReductionThrows :
    schemaRefiner engine (query request) (defaultSchema engine)
    = Throws error ->
    PipelineThrows engine request error
| SelectionThrows (refined : RefinedSchema.t) :
    schemaRefiner engine (query request) (defaultSchema engine)
    = Returns refined ->
    fewShotSelector engine (query request) (database request) 3
    = Throws error ->
    PipelineThrows engine request error
| GenerationThrows (refined : RefinedSchema.t) (examples : list Example.t) :
    schemaRefiner engine (query request) (defaultSchema engine)
    = Returns refined ->
    fewShotSelector engine (query request) (database request) 3
    = Returns examples ->
    llmClient engine (query request) (namesOf refined)
      (map (fun ex => (Example.nlq ex, Example.kql ex)) examples)
    = Throws error ->
    PipelineThrows engine request error.

Definition column (name type : string) : ColumnSchema.t :=
  ColumnSchema.mk (js name) (js type) None.

Definition table (name description : string) (columns : list ColumnSchema.t)
  (domain : list string) : TableSchema.t :=
  TableSchema.mk (js name) (Some (js description)) columns
    (Some (map js domain)).

Definition createDefaultSchema : DatabaseSchema.t :=
  DatabaseSchema.mk (js "SecurityDatabase")
    [ table "SecurityEvent"
        "Security events from Windows computers, including authentication, authorization, and audit events"
        [ column "TimeGenerated" "datetime"; column "Account" "string";
          column "AccountType" "string"; column "Activity" "string";
          column "Computer" "string"; column "EventID" "int";
          column "EventResult" "string"; column "SourceIP" "string" ]
        ["security"; "windows"; "authentication"]%string;
      table "EventLog"
        "Windows event logs including system, application, and security events"
        [ column "TimeGenerated" "datetime"; column "Level" "string";
          column "Message" "string"; column "Source" "string";
          column "EventID" "int"; column "Computer" "string" ]
        ["logs"; "windows"; "events"]%string;
      table "ProcessEvent"
        "Process creation and termination events"
        [ column "TimeGenerated" "datetime"; column "EventType" "string";
          column "ProcessName" "string"; column "CommandLine" "string";
          column "Computer" "string"; column "User" "string" ]
        ["process"; "security"; "monitoring"]%string;
      table "NetworkConnection"
        "Network connection events including inbound and outbound connections"
        [ column "TimeGenerated" "datetime"; column "SourceIP" "string";
          column "RemoteIP" "string"; column "Port" "int";
          column "Protocol" "string"; column "Computer" "string" ]
        ["network"; "security"; "connections"]%string;
      table "ThreatIntelligenceIndicator"
        "Threat intelligence indicators including malicious IPs, domains, and hashes"
        [ column "TimeGenerated" "datetime"; column "IPAddress" "string";
          column "ThreatType" "string"; column "ThreatSeverity" "string";
          column "Description" "string" ]
        ["threat"; "security"; "intelligence"]%string ].

(** The constructor: the engine built on this repository's refiners and
    selector, around the client [llm], with the selector's corpus
    [examples]. *)
Definition newEngine {rt : Runtime}
  (llm : jsstring -> QueryRefiner.SchemaNames -> list (jsstring * jsstring) ->
         outcome LLMResponse)
  (examples : list Example.t) (schema : option DatabaseSchema.t) : Engine :=
  {| schemaRefiner := fun nlq full =>
       Returns (SchemaRefiner.refineSchema nlq full);
     fewShotSelector := fun nlq db k =>
       Returns (FewShotSelector.selectExamples examples nlq db k);
     queryRefiner := fun text names =>
       Returns (QueryRefiner.refineQuery text names);
     llmClient := llm;
     defaultSchema :=
       match schema with
       | Some s => s
       | None => createDefaultSchema
       end |}.

(** [updateSchema]. *)
Definition updateSchema (engine : Engine) (schema : DatabaseSchema.t)
  : Engine :=
  {| schemaRefiner := schemaRefiner engine;
     fewShotSelector := fewShotSelector engine;
     queryRefiner := queryRefiner engine;
     llmClient := llmClient engine;
     defaultSchema := schema |}.

End NL2KQLEngine.

(* ================================================================== *)
(** * Inputs on which the code is evaluated below *)
(* ================================================================== *)

Module Inputs.

(** A question whose only entity, [windows], matches the descriptions and
    tags of two default tables and no column. *)
Definition windowsQuestion : jsstring := js "Windows".

(** A client whose call is rejected, a request, and a clock that advances
    by 25 ms between two readings. *)
Definition failingClient (nlq : jsstring) (names : QueryRefiner.SchemaNames)
  (examples : list (jsstring * jsstring))
  : NL2KQLEngine.outcome NL2KQLEngine.LLMResponse :=
  NL2KQLEngine.Throws
    (NL2KQLEngine.ErrorInstance
       (js "Failed to generate KQL: Connection error."))%string.

Definition failingEngine : NL2KQLEngine.Engine :=
  @NL2KQLEngine.newEngine asciiRuntime failingClient
    FewShotSelector.defaultExamples None.

Definition lastHourRequest : NL2KQLEngine.NL2KQLRequest :=
  NL2KQLEngine.mkRequest
    (js "Show me all security events from the last hour") None None.

Definition steadyClock : NL2KQLEngine.World :=
  NL2KQLEngine.mkWorld (fun i => 1000 + 25 * Z.of_nat i)%Z 0.

(** A question that quotes a table name. *)
Definition quotedTableQuestion : jsstring :=
  js "Show " ++ FewShotSelector.quoted "SecurityEvent".

(** Two questions: the first repeats a token that the second has. *)
Definition repeatingQuestion : jsstring := js "alpha alpha beta".
Definition otherQuestion : jsstring := js "alpha gamma delta".

(** Column names among which [timegenerated] has a longer partial match
    before its match up to case. *)
Definition columnNames : list jsstring :=
  [js "TimeGeneratedUtc"; js "Account"; js "TimeGenerated"; js "Time"].

(** A question with no domain term, no quoted substring and no
    capitalized word. *)
Definition plainQuestion : jsstring := js "what is up".

(** A client that answers every request with the query of the
    specification's scenario, and the engine around it. *)
Definition unclosedAnswer : NL2KQLEngine.LLMResponse :=
  NL2KQLEngine.mkLLMResponse
    (js "SecurityEvent | where TimeGenerated > ago(1h") (Some 42) None.

Definition answeringClient (nlq : jsstring) (names : QueryRefiner.SchemaNames)
  (examples : list (jsstring * jsstring))
  : NL2KQLEngine.outcome NL2KQLEngine.LLMResponse :=
  NL2KQLEngine.Returns unclosedAnswer.

Definition answeringEngine : NL2KQLEngine.Engine :=
  @NL2KQLEngine.newEngine asciiRuntime answeringClient
    FewShotSelector.defaultExamples None.

(** A query with a closing parenthesis too many. *)
Definition excessClosing : jsstring := js "T | summarize count())".

(** The specification's scenario of a call left open. *)
Definition unclosedCall : jsstring :=
  js "SecurityEvent | where TimeGenerated > ago(1h".

End Inputs.

(* ================================================================== *)
(** * Steps and conditions of the code, named for the theorems *)
(* ================================================================== *)

Module Steps.
Import QueryRefiner.

(** [if (open > close) fixed += closer.repeat(open - close)]. *)
Definition closeMissing (opener closer : N) (fixed : jsstring) : jsstring :=
  if countChar closer fixed <? countChar opener fixed
  then fixed ++ repeat closer (countChar opener fixed - countChar closer fixed)
  else fixed.

(** [if (count % 2 !== 0) fixed += quote]. *)
Definition closeQuote (quote : N) (fixed : jsstring) : jsstring :=
  if negb (countChar quote fixed mod 2 =? 0) then fixed ++ [quote] else fixed.

(** The text of [fixSyntaxErrors] before its lines are repaired. *)
Definition beforeLines (kql : jsstring) : jsstring :=
  closeQuote dquote
    (closeQuote squote
       (closeMissing lbracket rbracket
          (closeMissing lparen rparen
             (replaceAll (js "!==") (js "!=")
                (replaceAll (js "===") (js "==") kql))))).

(** [excess q]: [q] has more closing than opening parentheses, or more
    closing than opening brackets. *)
Definition excess (q : jsstring) : Prop :=
  countChar lparen q < countChar rparen q
  \/ countChar lbracket q < countChar rbracket q.

(** One turn of the [forEach] of [findClosestMatch]: the best match and
    the best score so far, and the next candidate. *)
Definition closestStep {rt : Runtime} (targetLower : jsstring)
  (best : option jsstring * Q) (candidate : jsstring)
  : option jsstring * Q :=
  let (bestMatch, bestScore) := best in
  let candidateLower := toLowerCase candidate in
  if JSString.eqb candidateLower targetLower then (Some candidate, 1%Q)
  else if includes candidateLower targetLower
          || includes targetLower candidateLower
  then
    let score :=
      (inject_Z (Z.of_nat (Nat.min (List.length candidateLower)
                             (List.length targetLower)))
       / inject_Z (Z.of_nat (Nat.max (List.length candidateLower)
                               (List.length targetLower))))%Q in
    if negb (Qle_bool score bestScore) then (Some candidate, score)
    else best
  else best.

(** [candidate] is [target] up to case. *)
Definition sameUpToCase {rt : Runtime} (target candidate : jsstring) : Prop :=
  toLowerCase candidate = toLowerCase target.

(** [best] holds a candidate equal to the target up to case, with score
    1. *)
Definition exactBest {rt : Runtime} (targetLower : jsstring)
  (best : option jsstring * Q) : Prop :=
  exists c, best = (Some c, 1%Q) /\ toLowerCase c = targetLower.

(** Whether [selectExamples] keeps an example as a candidate: any example
    when no database is named, the examples of the database otherwise. *)
Definition eligible (database : option jsstring) (ex : Example.t) : bool :=
  match database with
  | Some d => if truthy d then JSString.eqb (Example.database ex) d else true
  | None => true
  end.

(** The errors that one repair can leave. *)
Definition lastingErrors : list jsstring :=
  [ js "Unbalanced parentheses"; js "Unbalanced brackets";
    js "Use == or != instead of === or !==" ].

End Steps.

(* ================================================================== *)
(** * Theorems: sorting and slicing *)
(* ================================================================== *)

Unset Implicit Arguments.

Section SortFacts.
Context {A : Type} (compare : A -> A -> comparison).

Lemma insertSorted_perm (x : A) (l : list A) :
  Permutation (x :: l) (insertSorted compare x l).
Proof.
  induction l as [| y t IH]; simpl.
  - apply Permutation_refl.
  - destruct (compare x y).
    + apply Permutation_refl.
    + apply Permutation_refl.
    + eapply perm_trans; [apply perm_swap |].
      apply perm_skip. exact IH.
Qed.

Lemma stableSort_perm (l : list A) : Permutation l (stableSort compare l).
Proof.
  unfold stableSort.
  induction l as [| x t IH]; simpl.
  - apply perm_nil.
  - eapply perm_trans; [| apply insertSorted_perm].
    apply perm_skip. exact IH.
Qed.

Lemma stableSort_In (l : list A) (x : A) :
  In x (stableSort compare l) -> In x l.
Proof.
  intro H. eapply Permutation_in; [| exact H].
  apply Permutation_sym, stableSort_perm.
Qed.

Lemma stableSort_nil (l : list A) : stableSort compare l = [] -> l = [].
Proof.
  intro H. apply Permutation_nil.
  rewrite <- H. apply Permutation_sym, stableSort_perm.
Qed.

End SortFacts.

(** [rankByRelevance] orders by score, highest first, and keeps positive
    scores only. *)
Lemma insertSorted_byScoreDesc {T : Type} (x : Scored T Z)
  (l : list (Scored T Z)) :
  StronglySorted (fun a b => (score b <= score a)%Z) l ->
  StronglySorted (fun a b => (score b <= score a)%Z)
    (insertSorted SchemaRefiner.byScoreDesc x l).
Proof.
  induction l as [| y t IH]; intro Hs; simpl.
  - constructor; [constructor | constructor].
  - inversion Hs as [| y' t' Hst Hall]; subst.
    unfold SchemaRefiner.byScoreDesc at 1.
    destruct (Z.compare_spec (score y - score x) 0) as [Hc | Hc | Hc].
    + constructor; [exact Hs |]. constructor; [cbv beta; lia |].
      eapply Forall_impl; [| exact Hall]. cbv beta. intros a Ha. lia.
    + constructor; [exact Hs |]. constructor; [cbv beta; lia |].
      eapply Forall_impl; [| exact Hall]. cbv beta. intros a Ha. lia.
    + constructor; [apply IH; exact Hst |].
      eapply Permutation_Forall; [apply insertSorted_perm |].
      constructor; [cbv beta; lia | exact Hall].
Qed.

Lemma rankByRelevance_sorted {T : Type} (matches : list (Scored T Z)) :
  StronglySorted (fun a b => (score b <= score a)%Z)
    (SchemaRefiner.rankByRelevance matches).
Proof.
  unfold SchemaRefiner.rankByRelevance, stableSort.
  induction (filter (fun m => (0 <? score m)%Z) matches) as [| x t IH]; simpl.
  - constructor.
  - apply insertSorted_byScoreDesc. exact IH.
Qed.

Lemma slice0_In {A : Type} (k : nat) (l : list A) (x : A) :
  In x (slice0 k l) -> In x l.
Proof.
  unfold slice0. intro H.
  rewrite <- (firstn_skipn k l). apply in_or_app. left. exact H.
Qed.

Lemma slice0_length {A : Type} (k : nat) (l : list A) :
  List.length (slice0 k l) <= k.
Proof. unfold slice0. apply firstn_le_length. Qed.

(* ================================================================== *)
(** * Theorems: the schema refiner *)
(* ================================================================== *)

Section SchemaRefinerFacts.
Context {rt : Runtime}.
Import SchemaRefiner.

Lemma rankByRelevance_In {T : Type} (matches : list (Scored T Z))
  (m : Scored T Z) :
  In m (rankByRelevance matches) -> In m matches /\ (0 < score m)%Z.
Proof.
  unfold rankByRelevance. intro H.
  apply stableSort_In in H. apply filter_In in H.
  destruct H as [Hin Hpos]. split; [exact Hin |].
  apply Z.ltb_lt. exact Hpos.
Qed.

Lemma matchTables_item (entities : list jsstring) (tables : list TableSchema.t)
  (m : Scored TableSchema.t Z) :
  In m (matchTables entities tables) -> In (item m) tables.
Proof.
  unfold matchTables. intro H. apply in_map_iff in H.
  destruct H as [t [Heq Hin]]. subst m. exact Hin.
Qed.

Lemma matchColumns_item (entities : list jsstring)
  (tables : list TableSchema.t) (m : Scored ColumnSchema.t Z) :
  In m (matchColumns entities tables) ->
  exists t, In t tables /\ In (item m) (TableSchema.columns t).
Proof.
  unfold matchColumns. intro H. apply in_flat_map in H.
  destruct H as [t [Ht Hm]]. apply in_map_iff in Hm.
  destruct Hm as [c [Heq Hc]]. subst m.
  exists t. split; assumption.
Qed.

(** C5.  Every table of the schema that [refineSchema] returns is one of
    the tables of the source schema, and every column it returns is a column
    of one of the source tables: nothing is made up. *)
Theorem refineSchema_draws_from_source (nlq : jsstring)
  (fullSchema : DatabaseSchema.t) :
  Forall (fun t => In t (DatabaseSchema.tables fullSchema))
    (RefinedSchema.tables (refineSchema nlq fullSchema))
  /\
  Forall (fun c => exists t, In t (DatabaseSchema.tables fullSchema)
                             /\ In c (TableSchema.columns t))
    (RefinedSchema.columns (refineSchema nlq fullSchema)).
Proof.
  unfold refineSchema, selectTopK.
  cbn [RefinedSchema.tables RefinedSchema.columns].
  split; apply Forall_forall; intros x Hx;
    apply in_map_iff in Hx; destruct Hx as [m [Heq Hm]]; subst x;
    apply slice0_In in Hm; apply rankByRelevance_In in Hm;
    destruct Hm as [Hm _].
  - eapply matchTables_item. exact Hm.
  - eapply matchColumns_item. exact Hm.
Qed.

(** C6.  Whatever the size of the schema, [refineSchema] returns at most
    5 tables and at most 20 columns. *)
Theorem refineSchema_caps (nlq : jsstring) (fullSchema : DatabaseSchema.t) :
  List.length (RefinedSchema.tables (refineSchema nlq fullSchema)) <= 5
  /\ List.length (RefinedSchema.columns (refineSchema nlq fullSchema)) <= 20.
Proof.
  unfold refineSchema, selectTopK.
  cbn [RefinedSchema.tables RefinedSchema.columns].
  rewrite !length_map.
  split; apply slice0_length.
Qed.

(** C2, as the code has it.  The relevance is the average of the score of
    the top-ranked table and the score of the top-ranked column, where an
    empty ranking counts for 0: half the other score when exactly one
    ranking is empty, and 0 when both are. *)
Theorem refineSchema_relevance (nlq : jsstring)
  (fullSchema : DatabaseSchema.t) :
  (RefinedSchema.relevance (refineSchema nlq fullSchema) ==
   match rankedTables nlq fullSchema, rankedColumns nlq fullSchema with
   | t :: _, c :: _ => inject_Z (score t + score c) / 2
   | t :: _, [] => inject_Z (score t) / 2
   | [], c :: _ => inject_Z (score c) / 2
   | [], [] => 0
   end)%Q.
Proof.
  unfold refineSchema, computeOverallRelevance.
  cbn [RefinedSchema.relevance].
  destruct (rankedTables nlq fullSchema) as [| t ts];
    destruct (rankedColumns nlq fullSchema) as [| c cs]; simpl.
  - reflexivity.
  - reflexivity.
  - rewrite Z.add_0_r. reflexivity.
  - reflexivity.
Qed.

End SchemaRefinerFacts.

(** C2 as the specification states it fails: on the default schema the
    question [Windows] ranks two tables and no column, and the relevance is
    4, not 0. *)
Lemma relevance_with_no_ranked_column :
  @SchemaRefiner.rankedColumns asciiRuntime Inputs.windowsQuestion
    NL2KQLEngine.createDefaultSchema = []
  /\ (RefinedSchema.relevance
        (@SchemaRefiner.refineSchema asciiRuntime Inputs.windowsQuestion
           NL2KQLEngine.createDefaultSchema) == 4)%Q
  /\ ~ (RefinedSchema.relevance
          (@SchemaRefiner.refineSchema asciiRuntime Inputs.windowsQuestion
             NL2KQLEngine.createDefaultSchema) == 0)%Q.
Proof.
  split; [vm_compute; reflexivity |].
  split; [vm_compute; reflexivity |].
  intro H. vm_compute in H. discriminate H.
Qed.

(* ================================================================== *)
(** * Theorems: the query refiner's loop *)
(* ================================================================== *)

Section RefineLoopFacts.
Context {rt : Runtime}.
Import QueryRefiner.

Lemma validateSemantics_empty (kql : jsstring) (schema : SchemaNames) :
  validateSemantics kql schema = [].
Proof.
  unfold validateSemantics.
  destruct (List.length (tables schema) =? 0); reflexivity.
Qed.

(** One turn of the loop, with the semantic branch resolved. *)
Lemma refineLoop_step (budget : nat) (schema : option SchemaNames)
  (query : jsstring) (attempts : nat) (errors fixes : list jsstring) :
  refineLoop (S budget) schema query attempts errors fixes =
  if 0 <? List.length (validateSyntax query) then
    refineLoop budget schema
      (fixSyntaxErrors query (validateSyntax query))
      (attempts + 1)
      (errors ++ validateSyntax query)
      (fixes ++ [js "Fixed syntax errors: "
                 ++ join (js ", ") (validateSyntax query)])
  else mkResult query true [] fixes attempts.
Proof.
  cbn [refineLoop].
  destruct (0 <? List.length (validateSyntax query)); [reflexivity |].
  destruct schema as [names |]; [| reflexivity].
  rewrite validateSemantics_empty. reflexivity.
Qed.

Lemma refineLoop_schema_irrelevant (budget : nat)
  (schema1 schema2 : option SchemaNames) :
  forall query attempts errors fixes,
    refineLoop budget schema1 query attempts errors fixes =
    refineLoop budget schema2 query attempts errors fixes.
Proof.
  induction budget as [| budget IH]; intros query attempts errors fixes.
  - reflexivity.
  - rewrite !refineLoop_step.
    destruct (0 <? List.length (validateSyntax query)).
    + apply IH.
    + reflexivity.
Qed.

Lemma refineLoop_attempts (budget : nat) (schema : option SchemaNames) :
  forall query n errors fixes,
    attempts (refineLoop budget schema query n errors fixes) <= n + budget.
Proof.
  induction budget as [| budget IH]; intros query n errors fixes.
  - cbn. lia.
  - rewrite refineLoop_step.
    destruct (0 <? List.length (validateSyntax query)).
    + specialize (IH (fixSyntaxErrors query (validateSyntax query)) (n + 1)
        (errors ++ validateSyntax query)
        (fixes ++ [js "Fixed syntax errors: "
                   ++ join (js ", ") (validateSyntax query)])).
      lia.
    + cbn. lia.
Qed.

(** C1.  [refineQuery] is a total function: it returns a result for every
    query text and every schema argument, given or not, and the result
    counts at most [maxAttempts] = 3 attempts, whatever errors remain. *)
Theorem refineQuery_attempts_bounded (kql : jsstring)
  (schema : option SchemaNames) :
  attempts (refineQuery kql schema) <= 3.
Proof.
  unfold refineQuery.
  pose proof (refineLoop_attempts maxAttempts schema (trim kql) 0 [] []) as H.
  exact H.
Qed.

(** C9.  The result of [refineQuery] does not depend on its schema
    argument, given or not: [validateSemantics] returns the empty array for
    every input and drops the warnings it computes. *)
Theorem refineQuery_schema_irrelevant (kql : jsstring)
  (schema1 schema2 : option SchemaNames) :
  refineQuery kql schema1 = refineQuery kql schema2.
Proof.
  unfold refineQuery. apply refineLoop_schema_irrelevant.
Qed.

Lemma refineLoop_verdict (budget : nat) (schema : option SchemaNames) :
  forall query n errs fixes,
    n + budget = maxAttempts ->
    (0 < n -> errs <> []) ->
    let r := refineLoop budget schema query n errs fixes in
    (isValid r = false <-> attempts r = maxAttempts)
    /\ (isValid r = false -> errors r <> [])
    /\ (isValid r = true -> errors r = []).
Proof.
  induction budget as [| budget IH]; intros query n errs fixes Hsum Hne.
  - cbn. rewrite Nat.add_0_r in Hsum.
    assert (Hn : 0 < n) by (rewrite Hsum; unfold maxAttempts; lia).
    specialize (Hne Hn).
    destruct errs as [| e errs']; [contradiction |].
    cbn. repeat split; try congruence; intros; discriminate.
  - cbv zeta. rewrite refineLoop_step.
    destruct (0 <? List.length (validateSyntax query)) eqn:Herr.
    + apply IH.
      * lia.
      * intros _ Heq. apply app_eq_nil in Heq. destruct Heq as [_ Heq].
        rewrite Heq in Herr. discriminate Herr.
    + cbn. repeat split; try congruence; intros; try discriminate.
      lia.
Qed.

(** C10.  In the result of [refineQuery], [isValid] is false exactly when
    the attempts counter is 3; an invalid result lists at least one error
    and a valid one lists none. *)
Theorem refineQuery_verdict (kql : jsstring) (schema : option SchemaNames) :
  (isValid (refineQuery kql schema) = false
   <-> attempts (refineQuery kql schema) = 3)
  /\ (isValid (refineQuery kql schema) = false
      -> errors (refineQuery kql schema) <> [])
  /\ (isValid (refineQuery kql schema) = true
      -> errors (refineQuery kql schema) = []).
Proof.
  unfold refineQuery.
  apply (refineLoop_verdict maxAttempts schema (trim kql) 0 [] []).
  - reflexivity.
  - intro H. inversion H.
Qed.

End RefineLoopFacts.

(* ================================================================== *)
(** * Theorems: trimmed strings *)
(* ================================================================== *)

Section TrimFacts.

Lemma dropWhile_suffix (p : N -> bool) (s : jsstring) :
  exists pre, s = pre ++ dropWhile p s.
Proof.
  induction s as [| c t [pre IH]]; simpl.
  - exists []. reflexivity.
  - destruct (p c).
    + exists (c :: pre). simpl. rewrite <- IH. reflexivity.
    + exists []. reflexivity.
Qed.

Lemma dropWhile_head (p : N -> bool) (s : jsstring) (c : N) (t : jsstring) :
  dropWhile p s = c :: t -> p c = false.
Proof.
  induction s as [| x s' IH]; simpl; intro H.
  - discriminate H.
  - destruct (p x) eqn:Hx.
    + apply IH. exact H.
    + inversion H. subst. exact Hx.
Qed.

Lemma dropWhile_headClean (s : jsstring) :
  headClean s -> dropWhile isWhiteSpace s = s.
Proof.
  destruct s as [| c t]; simpl; intro H.
  - reflexivity.
  - rewrite H. reflexivity.
Qed.

Lemma headClean_app (x y : jsstring) : headClean x -> headClean (x ++ y).
Proof.
  destruct x as [| c t]; simpl; intro H; [contradiction | exact H].
Qed.

Lemma lastClean_app (x y : jsstring) : lastClean y -> lastClean (x ++ y).
Proof.
  unfold lastClean. rewrite rev_app_distr. apply headClean_app.
Qed.

Lemma lastClean_single (c : N) : isWhiteSpace c = false -> lastClean [c].
Proof. intro H. exact H. Qed.

Lemma lastClean_not_nil (s : jsstring) : lastClean s -> s <> [].
Proof. intros H Heq. subst s. exact H. Qed.

Lemma headClean_not_nil (s : jsstring) : headClean s -> s <> [].
Proof. intros H Heq. subst s. exact H. Qed.

Lemma lastClean_tail (c : N) (t : jsstring) :
  t <> [] -> lastClean (c :: t) -> lastClean t.
Proof.
  unfold lastClean. simpl. intros Hne H.
  destruct (rev t) as [| x r] eqn:Hrev.
  - apply (f_equal (@rev N)) in Hrev. rewrite rev_involutive in Hrev.
    contradiction.
  - exact H.
Qed.

Lemma lastClean_cons (c : N) (t : jsstring) :
  lastClean t -> lastClean (c :: t).
Proof. intro H. apply (lastClean_app [c] t H). Qed.

Lemma lastClean_last_char (c : N) : lastClean [c] -> isWhiteSpace c = false.
Proof. intro H. exact H. Qed.

Lemma trim_Trimmed (s : jsstring) : Trimmed (trim s).
Proof.
  unfold trim, Trimmed.
  destruct (dropWhile isWhiteSpace (rev (dropWhile isWhiteSpace s)))
    as [| c t] eqn:Hd2.
  - left. reflexivity.
  - right. split.
    + destruct (dropWhile_suffix isWhiteSpace (rev (dropWhile isWhiteSpace s)))
        as [pre Hpre].
      rewrite Hd2 in Hpre.
      apply (f_equal (@rev N)) in Hpre.
      rewrite rev_involutive, rev_app_distr in Hpre.
      destruct (rev (c :: t)) as [| x r] eqn:Hrev.
      * apply (f_equal (@rev N)) in Hrev. rewrite rev_involutive in Hrev.
        discriminate Hrev.
      * simpl in Hpre. simpl.
        apply (dropWhile_head isWhiteSpace s x (r ++ rev pre)). exact Hpre.
    + unfold lastClean. rewrite rev_involutive. simpl.
      apply (dropWhile_head isWhiteSpace _ c t Hd2).
Qed.

Lemma Trimmed_trim (s : jsstring) : Trimmed s -> trim s = s.
Proof.
  unfold trim. intros [Hnil | [Hh Hl]].
  - subst s. reflexivity.
  - rewrite (dropWhile_headClean s Hh).
    rewrite (dropWhile_headClean (rev s) Hl).
    apply rev_involutive.
Qed.

Lemma trim_truthy_lastClean (s : jsstring) :
  truthy (trim s) = true -> lastClean (trim s).
Proof.
  intro H. destruct (trim_Trimmed s) as [Hnil | [_ Hl]].
  - rewrite Hnil in H. discriminate H.
  - exact Hl.
Qed.

(** Replacing a pattern by a text that neither starts nor ends with white
    space keeps both ends clean. *)
Lemma replaceFrom_headClean (pat rep s : jsstring) :
  headClean rep -> headClean s -> headClean (replaceFrom pat rep 0 s).
Proof.
  intros Hrep Hs. destruct s as [| c t]; [contradiction |].
  cbn [replaceFrom]. destruct (startsWith (c :: t) pat).
  - apply headClean_app. exact Hrep.
  - exact Hs.
Qed.

Lemma replaceFrom_skipped (pat rep : jsstring) (s : jsstring) :
  forall k, List.length s <= k -> replaceFrom pat rep k s = [].
Proof.
  induction s as [| c t IH]; intros k Hk.
  - reflexivity.
  - simpl in Hk. destruct k as [| k]; [lia |].
    cbn [replaceFrom]. apply IH. lia.
Qed.

Lemma startsWith_length (p : jsstring) :
  forall s, startsWith s p = true -> List.length p <= List.length s.
Proof.
  induction p as [| a p' IH]; intros s H.
  - simpl. lia.
  - destruct s as [| b s']; simpl in H; [discriminate H |].
    apply andb_true_iff in H. destruct H as [_ H].
    apply IH in H. simpl. lia.
Qed.

Lemma replaceFrom_lastClean (pat rep : jsstring) :
  lastClean rep ->
  forall s k, lastClean s -> k < List.length s ->
              lastClean (replaceFrom pat rep k s).
Proof.
  intros Hrep s. induction s as [| c t IH]; intros k Hs Hk.
  - contradiction.
  - simpl in Hk. destruct k as [| k]; cbn [replaceFrom].
    + destruct (startsWith (c :: t) pat) eqn:Hsw.
      * apply startsWith_length in Hsw. simpl in Hsw.
        destruct (Nat.lt_ge_cases (List.length pat - 1) (List.length t))
          as [Hlt | Hge].
        -- apply lastClean_app. apply IH; [| exact Hlt].
           apply (lastClean_tail c); [| exact Hs].
           intro Heq. subst t. simpl in Hlt. lia.
        -- rewrite (replaceFrom_skipped pat rep t _ Hge).
           rewrite app_nil_r. exact Hrep.
      * destruct t as [| x t'].
        -- exact Hs.
        -- apply lastClean_cons. apply IH.
           ++ apply (lastClean_tail c); [discriminate | exact Hs].
           ++ simpl. lia.
    + apply IH.
      * apply (lastClean_tail c); [| exact Hs].
        intro Heq. subst t. simpl in Hk. lia.
      * lia.
Qed.

Lemma replaceAll_clean (pat rep s : jsstring) :
  headClean rep -> lastClean rep ->
  headClean s /\ lastClean s ->
  headClean (replaceAll pat rep s) /\ lastClean (replaceAll pat rep s).
Proof.
  intros Hh Hl [Hsh Hsl]. unfold replaceAll. split.
  - apply replaceFrom_headClean; assumption.
  - apply replaceFrom_lastClean; [exact Hl | exact Hsl |].
    destruct s; [contradiction | simpl; lia].
Qed.

Lemma append_repeat_clean (c : N) (n : nat) (s : jsstring) :
  isWhiteSpace c = false ->
  headClean s /\ lastClean s ->
  headClean (s ++ repeat c n) /\ lastClean (s ++ repeat c n).
Proof.
  intros Hc [Hh Hl]. split.
  - apply headClean_app. exact Hh.
  - destruct n as [| n].
    + simpl. rewrite app_nil_r. exact Hl.
    + apply lastClean_app. unfold lastClean.
      rewrite rev_repeat. simpl. exact Hc.
Qed.

Lemma append_char_clean (c : N) (s : jsstring) :
  isWhiteSpace c = false ->
  headClean s /\ lastClean s ->
  headClean (s ++ [c]) /\ lastClean (s ++ [c]).
Proof.
  intros Hc H. apply (append_repeat_clean c 1 s Hc H).
Qed.

End TrimFacts.

(* ================================================================== *)
(** * Theorems: repair keeps the query trimmed *)
(* ================================================================== *)

Section RepairFacts.
Import QueryRefiner.

Lemma newline_is_space : isWhiteSpace newline = true.
Proof. reflexivity. Qed.

Lemma clean_not_newline (c : N) :
  isWhiteSpace c = false -> N.eqb c newline = false.
Proof.
  intro H. destruct (N.eqb c newline) eqn:Heq; [| reflexivity].
  apply N.eqb_eq in Heq. subst c. rewrite newline_is_space in H.
  discriminate H.
Qed.

Lemma split_not_nil (sep : N) (s : jsstring) : split sep s <> [].
Proof.
  destruct s as [| c t]; simpl.
  - discriminate.
  - destruct (N.eqb c sep); [discriminate |].
    destruct (split sep t); discriminate.
Qed.

(** The first line of a text with a clean head has a clean head. *)
Lemma split_head (s : jsstring) :
  headClean s ->
  exists l ls, split newline s = l :: ls /\ headClean l.
Proof.
  destruct s as [| c t]; [contradiction |].
  intro H. simpl in H. simpl.
  rewrite (clean_not_newline c H).
  destruct (split newline t) as [| l ls].
  - exists [c], []. split; [reflexivity | exact H].
  - exists (c :: l), ls. split; [reflexivity | exact H].
Qed.

(** The last line of a text with a clean end has a clean end. *)
Lemma split_last (s : jsstring) :
  lastClean s ->
  exists ls l, split newline s = ls ++ [l] /\ lastClean l.
Proof.
  induction s as [| c t IH]; [contradiction |].
  intro H. destruct t as [| x t'].
  - apply lastClean_last_char in H.
    exists [], [c]. simpl. rewrite (clean_not_newline c H).
    split; [reflexivity | exact H].
  - assert (Ht : lastClean (x :: t'))
      by (apply (lastClean_tail c); [discriminate | exact H]).
    destruct (IH Ht) as [ls [l [Hsplit Hl]]].
    cbn [split]. cbn [split] in Hsplit. rewrite Hsplit.
    destruct (N.eqb c newline).
    + exists ([] :: ls), l. split; [reflexivity | exact Hl].
    + destruct ls as [| l0 ls']; simpl.
      * exists [], (c :: l). split; [reflexivity |].
        apply lastClean_cons. exact Hl.
      * exists ((c :: l0) :: ls'), l. split; [reflexivity | exact Hl].
Qed.

Lemma mapiFrom_snoc {A B : Type} (f : nat -> A -> B) (l : list A) (x : A) :
  forall i,
    mapiFrom f i (l ++ [x]) = mapiFrom f i l ++ [f (i + List.length l) x].
Proof.
  induction l as [| y t IH]; intro i; simpl.
  - rewrite Nat.add_0_r. reflexivity.
  - rewrite IH. rewrite Nat.add_succ_comm. reflexivity.
Qed.

Lemma join_head (sep l : jsstring) (ls : list jsstring) :
  headClean l -> headClean (join sep (l :: ls)).
Proof.
  intro H. destruct ls as [| l' ls']; simpl.
  - exact H.
  - apply headClean_app. exact H.
Qed.

Lemma join_last (sep : jsstring) (ls : list jsstring) (l : jsstring) :
  lastClean l -> lastClean (join sep (ls ++ [l])).
Proof.
  intro H. induction ls as [| x t IH].
  - exact H.
  - change ((x :: t) ++ [l]) with (x :: (t ++ [l])).
    destruct (t ++ [l]) as [| y r] eqn:Heq.
    + destruct t; discriminate Heq.
    + cbn [join]. cbn [join] in IH.
      apply lastClean_app. apply lastClean_app. exact IH.
Qed.

Lemma fixLine_last (index : nat) (line : jsstring) :
  lastClean line -> lastClean (fixLine index line).
Proof.
  intro H. unfold fixLine.
  destruct (index =? 0); [exact H |].
  cbv zeta. destruct (lacksPipe (trim line)) eqn:Hp; [| exact H].
  apply lastClean_app. apply trim_truthy_lastClean.
  unfold lacksPipe in Hp.
  destruct (truthy (trim line)); [reflexivity | discriminate Hp].
Qed.

Lemma fixLines_clean (s : jsstring) :
  headClean s /\ lastClean s ->
  headClean (join [newline] (mapi fixLine (split newline s)))
  /\ lastClean (join [newline] (mapi fixLine (split newline s))).
Proof.
  intros [Hh Hl]. split.
  - destruct (split_head s Hh) as [l [ls [Hsplit Hlh]]].
    rewrite Hsplit. unfold mapi. cbn [mapiFrom].
    apply join_head. exact Hlh.
  - destruct (split_last s Hl) as [ls [l [Hsplit Hll]]].
    rewrite Hsplit. unfold mapi. rewrite mapiFrom_snoc.
    apply join_last. apply fixLine_last. exact Hll.
Qed.

Lemma fixSyntaxErrors_clean (kql : jsstring) (errors : list jsstring) :
  headClean kql /\ lastClean kql ->
  headClean (fixSyntaxErrors kql errors)
  /\ lastClean (fixSyntaxErrors kql errors).
Proof.
  intro H. unfold fixSyntaxErrors. cbv zeta.
  apply fixLines_clean.
  repeat match goal with
         | |- headClean (if ?b then _ else _) /\ _ => destruct b
         | |- headClean (_ ++ [_]) /\ _ =>
             apply append_char_clean; [reflexivity |]
         | |- headClean (_ ++ repeat _ _) /\ _ =>
             apply append_repeat_clean; [reflexivity |]
         | |- headClean (replaceAll _ _ _) /\ _ =>
             apply replaceAll_clean; [reflexivity | reflexivity |]
         end; exact H.
Qed.

Context {rt : Runtime}.

Lemma validateSyntax_nil : validateSyntax [] = [].
Proof. reflexivity. Qed.

Lemma fixSyntaxErrors_Trimmed (kql : jsstring) :
  Trimmed kql -> validateSyntax kql <> [] ->
  Trimmed (fixSyntaxErrors kql (validateSyntax kql)).
Proof.
  intros [Hnil | Hclean] Herr.
  - subst kql. rewrite validateSyntax_nil in Herr. contradiction.
  - right. apply fixSyntaxErrors_clean. exact Hclean.
Qed.

(** A valid result of the loop carries a query that the checker accepts
    and that is still trimmed. *)
Lemma refineLoop_valid (budget : nat) (schema : option SchemaNames) :
  forall query n errs fixes,
    (budget = 0 -> errs <> []) ->
    Trimmed query ->
    isValid (refineLoop budget schema query n errs fixes) = true ->
    validateSyntax
      (QueryRefiner.query (refineLoop budget schema query n errs fixes)) = []
    /\ Trimmed
         (QueryRefiner.query (refineLoop budget schema query n errs fixes)).
Proof.
  induction budget as [| budget IH]; intros query n errs fixes Hne Htrim Hvalid.
  - cbn in Hvalid. specialize (Hne eq_refl).
    destruct errs; [contradiction | discriminate Hvalid].
  - rewrite refineLoop_step in *.
    destruct (0 <? List.length (validateSyntax query)) eqn:Herr.
    + apply IH; [| | exact Hvalid].
      * intros _ Heq. apply app_eq_nil in Heq. destruct Heq as [_ Heq].
        rewrite Heq in Herr. discriminate Herr.
      * apply fixSyntaxErrors_Trimmed; [exact Htrim |].
        intro Heq. rewrite Heq in Herr. discriminate Herr.
    + cbn. split; [| exact Htrim].
      destruct (validateSyntax query); [reflexivity | discriminate Herr].
Qed.

(** C7.  When [refineQuery] returns a valid result, the structural checker
    finds no error in the returned text, and [refineQuery] on the returned
    text, with any schema argument, returns that text unchanged, valid,
    after zero attempts (and with no error and no fix). *)
Theorem refineQuery_fixed_point (kql : jsstring)
  (schema schema' : option SchemaNames) :
  isValid (refineQuery kql schema) = true ->
  validateSyntax (QueryRefiner.query (refineQuery kql schema)) = []
  /\ refineQuery (QueryRefiner.query (refineQuery kql schema)) schema'
     = mkResult (QueryRefiner.query (refineQuery kql schema)) true [] [] 0.
Proof.
  intro Hvalid.
  destruct (refineLoop_valid maxAttempts schema (trim kql) 0 [] [])
    as [Hok Htrim].
  - discriminate.
  - apply trim_Trimmed.
  - exact Hvalid.
  - fold (refineQuery kql schema) in Hok, Htrim.
    split; [exact Hok |].
    unfold refineQuery at 1.
    rewrite (Trimmed_trim _ Htrim).
    unfold maxAttempts. rewrite refineLoop_step.
    rewrite Hok. reflexivity.
Qed.

End RepairFacts.

(** The repair of the specification's scenario is valid; the theorem
    applies to it. *)
Lemma refineQuery_fixed_point_scenario :
  QueryRefiner.isValid
    (@QueryRefiner.refineQuery asciiRuntime Inputs.unclosedCall None) = true
  /\ QueryRefiner.validateSyntax
       (QueryRefiner.query
          (@QueryRefiner.refineQuery asciiRuntime Inputs.unclosedCall None))
     = []
  /\ @QueryRefiner.refineQuery asciiRuntime
       (QueryRefiner.query
          (@QueryRefiner.refineQuery asciiRuntime Inputs.unclosedCall None))
       None
     = QueryRefiner.mkResult
         (QueryRefiner.query
            (@QueryRefiner.refineQuery asciiRuntime Inputs.unclosedCall None))
         true [] [] 0.
Proof.
  split; [vm_compute; reflexivity |].
  apply (@refineQuery_fixed_point asciiRuntime Inputs.unclosedCall None None).
  vm_compute. reflexivity.
Defined.

(* ================================================================== *)
(** * Theorems: the engine *)
(* ================================================================== *)

Section EngineFacts.
Import NL2KQLEngine.

(** X24.  [convert] never throws: whatever its steps do, it returns a
    response. *)
Lemma convert_returns (engine : Engine) (request : NL2KQLRequest)
  (w : World) :
  exists response w', convert engine request w = (Returns response, w').
Proof.
  unfold convert, bind, tryCatch, call, dateNow, ret.
  destruct (schemaRefiner engine (query request) (defaultSchema engine))
    as [refined | e1]; [| eexists; eexists; reflexivity].
  destruct (fewShotSelector engine (query request) (database request) 3)
    as [examples | e2]; [| eexists; eexists; reflexivity].
  destruct (llmClient engine (query request) (namesOf refined)
              (map (fun ex => (Example.nlq ex, Example.kql ex)) examples))
    as [llmResponse | e3]; [| eexists; eexists; reflexivity].
  destruct (queryRefiner engine (content llmResponse)
              (Some (namesOf refined)))
    as [result | e4]; eexists; eexists; reflexivity.
Qed.

(** C8.  When the schema reduction, the example selection or the
    generation call throws, [convert] does not throw: it returns a response
    with [success] false, the message of the error and the time elapsed
    between its two readings of the clock, and with no query text, no
    schema, no example count, no attempt count, no token count and no
    confidence. *)
Theorem convert_failure (engine : Engine) (request : NL2KQLRequest)
  (error : thrown) (w : World) :
  PipelineThrows engine request error ->
  convert engine request w =
  (Returns
     {| success := false;
        kql := None;
        error := Some (errorText error);
        refinedSchema := None;
        examplesUsed := None;
        refinements := None;
        metadata :=
          Some {| tokensUsed := None;
                  responseTime :=
                    Some (clock w (S (reads w)) - clock w (reads w))%Z;
                  confidence := None |} |},
   tick (tick w)).
Proof.
  intro H. unfold convert, bind, tryCatch, call, dateNow, ret, failure.
  destruct H as [H1 | refined H1 H2 | refined examples H1 H2 H3].
  - rewrite H1. reflexivity.
  - rewrite H1, H2. reflexivity.
  - rewrite H1, H2, H3. reflexivity.
Qed.

End EngineFacts.

(** The engine of this repository around a client whose call is rejected:
    the theorem applies, and the response carries the message of the client
    and the 25 ms between the two readings. *)
Lemma convert_failure_rejected_call :
  NL2KQLEngine.PipelineThrows Inputs.failingEngine Inputs.lastHourRequest
    (NL2KQLEngine.ErrorInstance
       (js "Failed to generate KQL: Connection error."))
  /\ NL2KQLEngine.convert Inputs.failingEngine Inputs.lastHourRequest
       Inputs.steadyClock
     = (NL2KQLEngine.Returns
          (NL2KQLEngine.failure
             (js "Failed to generate KQL: Connection error.") 25),
        NL2KQLEngine.mkWorld (NL2KQLEngine.clock Inputs.steadyClock) 2).
Proof.
  assert (H : NL2KQLEngine.PipelineThrows Inputs.failingEngine
                Inputs.lastHourRequest
                (NL2KQLEngine.ErrorInstance
                   (js "Failed to generate KQL: Connection error."))).
  { eapply NL2KQLEngine.GenerationThrows; reflexivity. }
  split; [exact H |].
  exact (convert_failure Inputs.failingEngine Inputs.lastHourRequest _
           Inputs.steadyClock H).
Defined.

(* ================================================================== *)
(** * Theorems: entities and similarity *)
(* ================================================================== *)

Section SetFacts.

Lemma eqb_eq (a b : jsstring) : JSString.eqb a b = true <-> a = b.
Proof.
  revert b. induction a as [| x a' IH]; intros [| y b']; simpl;
    split; intro H; try reflexivity; try discriminate H.
  - apply andb_true_iff in H. destruct H as [Hxy Hab].
    apply N.eqb_eq in Hxy. apply IH in Hab. subst. reflexivity.
  - inversion H. subst. apply andb_true_iff. split.
    + apply N.eqb_refl.
    + apply IH. reflexivity.
Qed.

Lemma member_In (x : jsstring) (l : list jsstring) :
  member x l = true <-> In x l.
Proof.
  unfold member. rewrite existsb_exists. split.
  - intros [y [Hin Heq]]. apply eqb_eq in Heq. subst y. exact Hin.
  - intro Hin. exists x. split; [exact Hin | apply eqb_eq; reflexivity].
Qed.

Lemma dedupInto_In (l : list jsstring) :
  forall seen x,
    In x (dedupInto seen l) <-> In x l /\ ~ In x seen.
Proof.
  induction l as [| y t IH]; intros seen x; simpl.
  - tauto.
  - destruct (member y seen) eqn:Hm.
    + apply member_In in Hm. rewrite IH. split.
      * intros [Hin Hns]. tauto.
      * intros [[Heq | Hin] Hns]; [subst; contradiction | tauto].
    + assert (Hny : ~ In y seen).
      { intro Hin. apply member_In in Hin. rewrite Hin in Hm. discriminate. }
      simpl. rewrite IH. simpl. split.
      * intros [Heq | [Hin Hns]]; [subst; tauto | tauto].
      * intros [[Heq | Hin] Hns]; [tauto |].
        destruct (list_eq_dec N.eq_dec y x) as [Heq | Hneq]; [tauto |].
        right. split; [exact Hin |]. intros [Hyx | Hs]; tauto.
Qed.

Lemma dedupInto_NoDup (l : list jsstring) :
  forall seen, NoDup (dedupInto seen l).
Proof.
  induction l as [| y t IH]; intro seen; simpl.
  - constructor.
  - destruct (member y seen).
    + apply IH.
    + constructor; [| apply IH].
      intro Hin. apply dedupInto_In in Hin. destruct Hin as [_ Hns].
      apply Hns. left. reflexivity.
Qed.

Lemma dedup_NoDup (l : list jsstring) : NoDup (dedup l).
Proof. apply dedupInto_NoDup. Qed.

Lemma dedup_In (l : list jsstring) (x : jsstring) :
  In x (dedup l) <-> In x l.
Proof. unfold dedup. rewrite dedupInto_In. simpl. tauto. Qed.

End SetFacts.

(** The entities of every question are free of duplicates. *)
Lemma extractEntities_NoDup {rt : Runtime} (nlq : jsstring) :
  NoDup (SchemaRefiner.extractEntities nlq).
Proof. unfold SchemaRefiner.extractEntities. apply dedup_NoDup. Qed.

(** C4 at a question that quotes a table name: the quoted name is an
    entity as it is written, with its capitals, next to entities that are
    lowered; the collection has no duplicates. *)
Theorem extractEntities_keeps_quoted_capitals :
  @SchemaRefiner.extractEntities asciiRuntime Inputs.quotedTableQuestion
  = [js "security"; js "event"; js "SecurityEvent"; js "show"]
  /\ In (js "SecurityEvent")
       (@SchemaRefiner.extractEntities asciiRuntime Inputs.quotedTableQuestion)
  /\ @toLowerCase asciiRuntime (js "SecurityEvent") <> js "SecurityEvent".
Proof.
  split; [vm_compute; reflexivity |].
  split.
  - vm_compute. right. right. left. reflexivity.
  - vm_compute. discriminate.
Qed.

(** C3 at two questions of which the first repeats a token: the code
    counts the repeated token twice in the intersection and gives 2/4,
    where the Jaccard index of the two token sets is 1/4. *)
Theorem computeSimilarity_counts_repeats :
  (@FewShotSelector.computeSimilarity asciiRuntime
     Inputs.repeatingQuestion Inputs.otherQuestion == 1 # 2)%Q
  /\ (@FewShotSelector.similaritySpec asciiRuntime
        Inputs.repeatingQuestion Inputs.otherQuestion == 1 # 4)%Q
  /\ ~ (@FewShotSelector.computeSimilarity asciiRuntime
          Inputs.repeatingQuestion Inputs.otherQuestion
        == @FewShotSelector.similaritySpec asciiRuntime
             Inputs.repeatingQuestion Inputs.otherQuestion)%Q.
Proof.
  split; [vm_compute; reflexivity |].
  split; [vm_compute; reflexivity |].
  intro H. vm_compute in H. discriminate H.
Qed.

(* ================================================================== *)
(** * Theorems: where the code and the set reading agree *)
(* ================================================================== *)

Section SimilarityFacts.
Context {rt : Runtime}.
Import FewShotSelector.

Lemma dedupInto_id (l : list jsstring) :
  forall seen,
    NoDup l -> (forall x, In x l -> ~ In x seen) -> dedupInto seen l = l.
Proof.
  induction l as [| y t IH]; intros seen Hnd Hfresh; simpl.
  - reflexivity.
  - inversion Hnd as [| y' t' Hnotin Hnd']; subst.
    destruct (member y seen) eqn:Hm.
    + apply member_In in Hm. exfalso.
      apply (Hfresh y); [left; reflexivity | exact Hm].
    + f_equal. apply IH; [exact Hnd' |].
      intros x Hx [Heq | Hs].
      * subst x. contradiction.
      * apply (Hfresh x); [right; exact Hx | exact Hs].
Qed.

Lemma dedup_id (l : list jsstring) : NoDup l -> dedup l = l.
Proof.
  intro H. unfold dedup. apply dedupInto_id; [exact H |].
  intros x _ Hin. exact Hin.
Qed.

Lemma member_dedup (x : jsstring) (l : list jsstring) :
  member x (dedup l) = member x l.
Proof.
  destruct (member x l) eqn:Hm.
  - apply (proj2 (member_In x (dedup l))).
    apply (proj2 (dedup_In l x)).
    apply (proj1 (member_In x l)). exact Hm.
  - destruct (member x (dedup l)) eqn:Hd; [| reflexivity].
    apply (proj1 (member_In x (dedup l))) in Hd.
    apply (proj1 (dedup_In l x)) in Hd.
    apply (proj2 (member_In x l)) in Hd.
    rewrite Hd in Hm. discriminate Hm.
Qed.

Lemma union_of_sets_length (a b : list jsstring) :
  List.length (dedup (dedup a ++ dedup b)) = List.length (dedup (a ++ b)).
Proof.
  apply Permutation_length. apply NoDup_Permutation.
  - apply dedup_NoDup.
  - apply dedup_NoDup.
  - intro x. rewrite !dedup_In, !in_app_iff, !dedup_In. tauto.
Qed.

(** X20.  When the tokens of the first question do not repeat, the score that
    [computeSimilarity] returns is the one of the set reading. *)
Lemma computeSimilarity_without_repeats (nlq1 nlq2 : jsstring) :
  NoDup (tokenize nlq1) ->
  computeSimilarity nlq1 nlq2 = similaritySpec nlq1 nlq2.
Proof.
  intro Hnd.
  unfold computeSimilarity, similaritySpec, jaccardOfSets, tokenSet.
  cbv zeta. rewrite union_of_sets_length.
  destruct (List.length (dedup (tokenize nlq1 ++ tokenize nlq2)) =? 0)
    eqn:Hu; [reflexivity |].
  rewrite (dedup_id _ Hnd).
  rewrite (filter_ext _ _ (fun w => member_dedup w (tokenize nlq2))).
  reflexivity.
Qed.

End SimilarityFacts.

(* ================================================================== *)
(** * The specification's scenarios *)
(* ================================================================== *)

(** A hundred opening parentheses are closed in one attempt; a hundred
    closing ones are left as they are, and the loop stops after three. *)
Lemma refineQuery_hundred_open :
  @QueryRefiner.refineQuery asciiRuntime (repeat QueryRefiner.lparen 100) None
  = QueryRefiner.mkResult
      (repeat QueryRefiner.lparen 100 ++ repeat QueryRefiner.rparen 100)
      true []
      [js "Fixed syntax errors: Unbalanced parentheses"] 1.
Proof. vm_compute. reflexivity. Qed.

Lemma refineQuery_hundred_closed :
  @QueryRefiner.refineQuery asciiRuntime (repeat QueryRefiner.rparen 100) None
  = QueryRefiner.mkResult
      (repeat QueryRefiner.rparen 100)
      false
      (repeat (js "Unbalanced parentheses") 3)
      (repeat (js "Fixed syntax errors: Unbalanced parentheses") 3) 3.
Proof. vm_compute. reflexivity. Qed.

Lemma refineQuery_unclosed_call :
  @QueryRefiner.refineQuery asciiRuntime Inputs.unclosedCall None
  = QueryRefiner.mkResult
      (js "SecurityEvent | where TimeGenerated > ago(1h)")
      true []
      [js "Fixed syntax errors: Unbalanced parentheses"] 1.
Proof. vm_compute. reflexivity. Qed.

Lemma fixSyntaxErrors_strict_equality :
  QueryRefiner.fixSyntaxErrors
    (js "Activity === " ++ FewShotSelector.quoted "Logon") []
  = js "Activity == " ++ FewShotSelector.quoted "Logon".
Proof. vm_compute. reflexivity. Qed.

Lemma selectExamples_empty_corpus :
  @FewShotSelector.selectExamples asciiRuntime []
    (js "anything") (Some (js "UnknownDatabase")) 3 = [].
Proof. reflexivity. Qed.

(* ================================================================== *)
(** * Theorems: counting characters through a repair *)
(* ================================================================== *)

Section CountFacts.
Import QueryRefiner Steps.

Lemma fixSyntaxErrors_steps (kql : jsstring) (errors : list jsstring) :
  fixSyntaxErrors kql errors
  = join [newline] (mapi fixLine (split newline (beforeLines kql))).
Proof. reflexivity. Qed.

Lemma countChar_app (c : N) (a b : jsstring) :
  countChar c (a ++ b) = countChar c a + countChar c b.
Proof. unfold countChar. rewrite filter_app, length_app. reflexivity. Qed.

Lemma countChar_cons (c x : N) (s : jsstring) :
  countChar c (x :: s) = (if N.eqb c x then 1 else 0) + countChar c s.
Proof. unfold countChar. simpl. destruct (N.eqb c x); reflexivity. Qed.

Lemma countChar_repeat_same (c : N) (n : nat) : countChar c (repeat c n) = n.
Proof.
  induction n as [| n IH]; [reflexivity |].
  simpl repeat. rewrite countChar_cons, N.eqb_refl, IH. reflexivity.
Qed.

Lemma countChar_repeat_other (c d : N) (n : nat) :
  N.eqb c d = false -> countChar c (repeat d n) = 0.
Proof.
  intro H. induction n as [| n IH]; [reflexivity |].
  simpl repeat. rewrite countChar_cons, H, IH. reflexivity.
Qed.

Lemma countChar_rev (c : N) (s : jsstring) :
  countChar c (rev s) = countChar c s.
Proof.
  induction s as [| x t IH]; [reflexivity |].
  simpl rev. rewrite countChar_app, IH, !countChar_cons.
  unfold countChar at 2. simpl. lia.
Qed.

Lemma countChar_dropWhile (p : N -> bool) (c : N) (s : jsstring) :
  p c = false -> countChar c (dropWhile p s) = countChar c s.
Proof.
  intro Hc. induction s as [| x t IH]; [reflexivity |].
  simpl dropWhile. destruct (p x) eqn:Hx; [| reflexivity].
  rewrite IH, countChar_cons.
  destruct (N.eqb c x) eqn:Heq; [| reflexivity].
  apply N.eqb_eq in Heq. subst x. rewrite Hc in Hx. discriminate Hx.
Qed.

Lemma countChar_trim (c : N) (s : jsstring) :
  isWhiteSpace c = false -> countChar c (trim s) = countChar c s.
Proof.
  intro Hc. unfold trim.
  rewrite countChar_rev, (countChar_dropWhile _ _ _ Hc), countChar_rev.
  apply countChar_dropWhile. exact Hc.
Qed.

Lemma startsWith_firstn (p : jsstring) :
  forall s, startsWith s p = true -> firstn (List.length p) s = p.
Proof.
  induction p as [| a p' IH]; intros s H; [reflexivity |].
  destruct s as [| b s']; simpl in H; [discriminate H |].
  apply andb_true_iff in H. destruct H as [Hab H].
  apply N.eqb_eq in Hab. subst b. simpl. rewrite (IH s' H). reflexivity.
Qed.

(** Replacing a pattern keeps the count of a character that occurs
    neither in the pattern nor in the replacement. *)
Lemma countChar_replaceFrom (c : N) (pat rep : jsstring) :
  pat <> [] -> countChar c pat = 0 -> countChar c rep = 0 ->
  forall s k,
    countChar c (firstn k s) = 0 ->
    countChar c (replaceFrom pat rep k s) = countChar c s.
Proof.
  intros Hne Hpat Hrep s.
  induction s as [| x t IH]; intros k Hk; [reflexivity |].
  destruct k as [| k]; cbn [replaceFrom].
  - destruct (startsWith (x :: t) pat) eqn:Hsw.
    + apply startsWith_firstn in Hsw.
      destruct pat as [| a pat']; [contradiction |].
      simpl in Hsw. injection Hsw as Hx Hrest. subst a.
      rewrite countChar_cons in Hpat.
      rewrite countChar_app, Hrep.
      replace (List.length (x :: pat') - 1) with (List.length pat')
        by (simpl; lia).
      rewrite IH; [| rewrite Hrest; lia].
      rewrite countChar_cons. lia.
    + rewrite !countChar_cons, IH; [reflexivity | reflexivity].
  - simpl firstn in Hk. rewrite countChar_cons in Hk.
    rewrite IH; [| lia]. rewrite countChar_cons. lia.
Qed.

Lemma countChar_replaceAll (c : N) (pat rep s : jsstring) :
  pat <> [] -> countChar c pat = 0 -> countChar c rep = 0 ->
  countChar c (replaceAll pat rep s) = countChar c s.
Proof.
  intros Hne Hpat Hrep. unfold replaceAll.
  apply countChar_replaceFrom; try assumption. reflexivity.
Qed.

Lemma countChar_split (c : N) (s : jsstring) :
  N.eqb c newline = false ->
  countChar c (List.concat (split newline s)) = countChar c s.
Proof.
  intro Hc. induction s as [| x t IH]; [reflexivity |].
  cbn [split]. destruct (N.eqb x newline) eqn:Hx.
  - apply N.eqb_eq in Hx. subst x. simpl List.concat.
    rewrite IH, countChar_cons, Hc. reflexivity.
  - destruct (split newline t) as [| l ls] eqn:Hsp.
    + exfalso. apply (split_not_nil newline t). exact Hsp.
    + simpl List.concat in *. rewrite countChar_cons.
      change ((x :: l) ++ List.concat ls) with (x :: (l ++ List.concat ls)).
      rewrite countChar_cons, IH. reflexivity.
Qed.

Lemma countChar_join (c : N) (ls : list jsstring) :
  N.eqb c newline = false ->
  countChar c (join [newline] ls) = countChar c (List.concat ls).
Proof.
  intro Hc. induction ls as [| l rest IH]; [reflexivity |].
  destruct rest as [| l' rest'].
  - simpl. rewrite app_nil_r. reflexivity.
  - cbn [join]. cbn [join] in IH. simpl List.concat.
    rewrite !countChar_app, IH. simpl List.concat.
    rewrite countChar_app, countChar_cons, Hc. reflexivity.
Qed.

Lemma countChar_mapiFrom (c : N) (f : nat -> jsstring -> jsstring)
  (ls : list jsstring) :
  (forall i l, countChar c (f i l) = countChar c l) ->
  forall i,
    countChar c (List.concat (mapiFrom f i ls)) = countChar c (List.concat ls).
Proof.
  intros Hf. induction ls as [| l rest IH]; intro i; [reflexivity |].
  simpl. rewrite !countChar_app, Hf, IH. reflexivity.
Qed.

Lemma countChar_fixLine (c : N) (index : nat) (line : jsstring) :
  isWhiteSpace c = false -> N.eqb c pipe = false ->
  countChar c (fixLine index line) = countChar c line.
Proof.
  intros Hws Hpipe. unfold fixLine.
  destruct (index =? 0); [reflexivity |]. cbv zeta.
  destruct (lacksPipe (trim line)); [| reflexivity].
  rewrite countChar_app, (countChar_trim _ _ Hws).
  change (js "| ") with [pipe; 32%N].
  rewrite !countChar_cons, Hpipe.
  destruct (N.eqb c 32) eqn:Hsp; [| reflexivity].
  apply N.eqb_eq in Hsp. subst c. discriminate Hws.
Qed.

(** The repair of the lines keeps the count of every character that is
    neither white space nor the pipe. *)
Lemma countChar_fixLines (c : N) (s : jsstring) :
  isWhiteSpace c = false -> N.eqb c pipe = false ->
  countChar c (join [newline] (mapi fixLine (split newline s)))
  = countChar c s.
Proof.
  intros Hws Hpipe.
  assert (Hnl : N.eqb c newline = false).
  { destruct (N.eqb c newline) eqn:H; [| reflexivity].
    apply N.eqb_eq in H. subst c. discriminate Hws. }
  rewrite (countChar_join _ _ Hnl). unfold mapi.
  rewrite countChar_mapiFrom.
  - apply countChar_split. exact Hnl.
  - intros i l. apply countChar_fixLine; assumption.
Qed.

Lemma countChar_closeMissing_other (c opener closer : N) (s : jsstring) :
  N.eqb c closer = false ->
  countChar c (closeMissing opener closer s) = countChar c s.
Proof.
  intro H. unfold closeMissing.
  destruct (countChar closer s <? countChar opener s); [| reflexivity].
  rewrite countChar_app, (countChar_repeat_other _ _ _ H). lia.
Qed.

Lemma countChar_closeMissing_closer (opener closer : N) (s : jsstring) :
  countChar closer (closeMissing opener closer s)
  = Nat.max (countChar opener s) (countChar closer s).
Proof.
  unfold closeMissing.
  destruct (countChar closer s <? countChar opener s) eqn:H.
  - apply Nat.ltb_lt in H.
    rewrite countChar_app, countChar_repeat_same. lia.
  - apply Nat.ltb_ge in H. lia.
Qed.

Lemma countChar_closeQuote_other (c quote : N) (s : jsstring) :
  N.eqb c quote = false ->
  countChar c (closeQuote quote s) = countChar c s.
Proof.
  intro H. unfold closeQuote.
  destruct (negb (countChar quote s mod 2 =? 0)); [| reflexivity].
  rewrite countChar_app, countChar_cons, H.
  change (countChar c []) with 0. lia.
Qed.

Lemma countChar_closeQuote_even (quote : N) (s : jsstring) :
  countChar quote (closeQuote quote s) mod 2 = 0.
Proof.
  unfold closeQuote.
  destruct (countChar quote s mod 2 =? 0) eqn:H; simpl negb; cbv iota.
  - apply Nat.eqb_eq in H. exact H.
  - apply Nat.eqb_neq in H.
    rewrite countChar_app, countChar_cons, N.eqb_refl.
    change (countChar quote []) with 0.
    pose proof (Nat.mod_upper_bound (countChar quote s) 2) as Hb.
    pose proof (Nat.div_mod_eq (countChar quote s) 2) as Hd.
    assert (Hm : countChar quote s mod 2 = 1) by lia.
    replace (countChar quote s + (1 + 0))
      with (0 + (countChar quote s / 2 + 1) * 2) by lia.
    rewrite Nat.Div0.mod_add. reflexivity.
Qed.

(** The replacements of strict (in)equality keep the count of every
    character but [=] and [!]. *)
Lemma countChar_replacements (c : N) (kql : jsstring) :
  countChar c (js "=") = 0 -> countChar c (js "!") = 0 ->
  countChar c (replaceAll (js "!==") (js "!=")
                 (replaceAll (js "===") (js "==") kql))
  = countChar c kql.
Proof.
  intros He Hb.
  assert (Heq : N.eqb c 61 = false).
  { destruct (N.eqb c 61) eqn:H; [| reflexivity].
    apply N.eqb_eq in H. subst c. discriminate He. }
  assert (Hbang : N.eqb c 33 = false).
  { destruct (N.eqb c 33) eqn:H; [| reflexivity].
    apply N.eqb_eq in H. subst c. discriminate Hb. }
  rewrite !countChar_replaceAll; try reflexivity; try discriminate;
    repeat (change (js "===") with [61%N; 61%N; 61%N]
            || change (js "==") with [61%N; 61%N]
            || change (js "!==") with [33%N; 61%N; 61%N]
            || change (js "!=") with [33%N; 61%N]);
    rewrite ?countChar_cons, ?Heq, ?Hbang; reflexivity.
Qed.

End CountFacts.

(* ================================================================== *)
(** * Theorems: what one repair achieves *)
(* ================================================================== *)

Section OneRepair.
Import QueryRefiner Steps.

Lemma countChar_dropWhile_le (p : N -> bool) (c : N) (s : jsstring) :
  countChar c (dropWhile p s) <= countChar c s.
Proof.
  induction s as [| x t IH]; [apply Nat.le_refl |].
  simpl dropWhile. destruct (p x); [| apply Nat.le_refl].
  rewrite countChar_cons. lia.
Qed.

Lemma countChar_trim_le (c : N) (s : jsstring) :
  countChar c (trim s) <= countChar c s.
Proof.
  unfold trim. rewrite countChar_rev.
  eapply Nat.le_trans; [apply countChar_dropWhile_le |].
  rewrite countChar_rev. apply countChar_dropWhile_le.
Qed.

Lemma split_one_line (l : jsstring) :
  countChar newline l = 0 -> split newline l = [l].
Proof.
  induction l as [| x t IH]; intro H; [reflexivity |].
  rewrite countChar_cons in H. cbn [split].
  destruct (N.eqb x newline) eqn:Hx.
  - rewrite N.eqb_sym, Hx in H. discriminate H.
  - rewrite IH; [reflexivity |]. lia.
Qed.

Lemma split_after_line (l r : jsstring) :
  countChar newline l = 0 ->
  split newline (l ++ newline :: r) = l :: split newline r.
Proof.
  induction l as [| x t IH]; intro H.
  - reflexivity.
  - rewrite countChar_cons in H.
    change ((x :: t) ++ newline :: r) with (x :: (t ++ newline :: r)).
    cbn [split]. destruct (N.eqb x newline) eqn:Hx.
    + rewrite N.eqb_sym, Hx in H. discriminate H.
    + rewrite IH; [reflexivity |]. lia.
Qed.

(** Lines without a line feed, joined and split again, come back. *)
Lemma split_join (ls : list jsstring) :
  ls <> [] -> Forall (fun l => countChar newline l = 0) ls ->
  split newline (join [newline] ls) = ls.
Proof.
  induction ls as [| l rest IH]; intros Hne Hall; [contradiction |].
  inversion Hall as [| l' rest' Hl Hrest]; subst.
  destruct rest as [| l2 rest2].
  - simpl. apply split_one_line. exact Hl.
  - assert (Hj : join [newline] (l :: l2 :: rest2)
                 = l ++ newline :: join [newline] (l2 :: rest2))
      by reflexivity.
    rewrite Hj, (split_after_line _ _ Hl). f_equal.
    apply IH; [discriminate | exact Hrest].
Qed.

Lemma split_lines_clean (s : jsstring) :
  Forall (fun l => countChar newline l = 0) (split newline s).
Proof.
  induction s as [| x t IH]; cbn [split].
  - constructor; [reflexivity | constructor].
  - destruct (N.eqb x newline) eqn:Hx.
    + constructor; [reflexivity | exact IH].
    + destruct (split newline t) as [| l ls].
      * constructor; [| constructor].
        rewrite countChar_cons, N.eqb_sym, Hx. reflexivity.
      * inversion IH as [| l' ls' Hl Hls]; subst.
        constructor; [| exact Hls].
        rewrite countChar_cons, N.eqb_sym, Hx. exact Hl.
Qed.

Lemma fixLine_no_newline (index : nat) (line : jsstring) :
  countChar newline line = 0 -> countChar newline (fixLine index line) = 0.
Proof.
  intro H. unfold fixLine. destruct (index =? 0); [exact H |].
  cbv zeta. destruct (lacksPipe (trim line)); [| exact H].
  rewrite countChar_app. pose proof (countChar_trim_le newline line).
  change (countChar newline (js "| ")) with 0. lia.
Qed.

Lemma mapiFrom_Forall {A B : Type} (f : nat -> A -> B) (P : A -> Prop)
  (Q : B -> Prop) (l : list A) :
  forall i,
    (forall j x, i <= j -> P x -> Q (f j x)) ->
    Forall P l -> Forall Q (mapiFrom f i l).
Proof.
  induction l as [| x t IH]; intros i Hf Hall; simpl.
  - constructor.
  - inversion Hall as [| x' t' Hx Ht]; subst. constructor.
    + apply Hf; [apply Nat.le_refl | exact Hx].
    + apply IH; [| exact Ht]. intros j y Hj. apply Hf. lia.
Qed.

Lemma mapiFrom_not_nil {A B : Type} (f : nat -> A -> B) (i : nat)
  (l : list A) : l <> [] -> mapiFrom f i l <> [].
Proof. destruct l; [contradiction | discriminate]. Qed.

(** A repaired line, after the first, starts with a pipe, a comment or a
    dot once trimmed, or is blank. *)
Lemma fixLine_has_pipe (index : nat) (line : jsstring) :
  1 <= index -> lacksPipe (trim (fixLine index line)) = false.
Proof.
  intro Hi. unfold fixLine.
  destruct (index =? 0) eqn:H0; [apply Nat.eqb_eq in H0; lia |].
  cbv zeta. destruct (lacksPipe (trim line)) eqn:Hp; [| exact Hp].
  assert (Ht : truthy (trim line) = true).
  { unfold lacksPipe in Hp. destruct (truthy (trim line));
      [reflexivity | discriminate Hp]. }
  rewrite Trimmed_trim.
  - reflexivity.
  - right. split.
    + reflexivity.
    + apply lastClean_app. apply trim_truthy_lastClean. exact Ht.
Qed.

Lemma pipeErrors_none (lines : list jsstring) :
  Forall (fun l => lacksPipe (trim l) = false) (tl lines) ->
  pipeErrors lines = [].
Proof.
  unfold pipeErrors. generalize (tl lines) at 1 2. generalize 1 at 2.
  intros i ls. revert i.
  induction ls as [| l rest IH]; intros i Hall; [reflexivity |].
  inversion Hall as [| l' rest' Hl Hrest]; subst.
  cbn [mapiFrom List.concat]. rewrite Hl. simpl. apply IH. exact Hrest.
Qed.

Lemma Forall_tl {A : Type} (P : A -> Prop) (l : list A) :
  Forall P l -> Forall P (tl l).
Proof.
  intro H. destruct H as [| x t Hx Ht]; [constructor | exact Ht].
Qed.

Lemma Forall_filter_keep {A : Type} (P : A -> Prop) (g : A -> bool)
  (l : list A) : Forall P l -> Forall P (filter g l).
Proof.
  intro H. apply Forall_forall. intros x Hx.
  apply filter_In in Hx. destruct Hx as [Hx _].
  rewrite Forall_forall in H. apply H. exact Hx.
Qed.

Lemma pipeErrors_after_fixLines (s : jsstring) :
  pipeErrors
    (filter (fun l => truthy (trim l))
       (split newline (join [newline] (mapi fixLine (split newline s)))))
  = [].
Proof.
  rewrite split_join.
  - apply pipeErrors_none. unfold mapi.
    destruct (split newline s) as [| l0 rest]; [constructor |].
    cbn [mapiFrom].
    assert (Hrest : Forall (fun l => lacksPipe (trim l) = false)
                      (mapiFrom fixLine 1 rest)).
    { apply (mapiFrom_Forall fixLine (fun _ => True)).
      - intros j x Hj _. apply fixLine_has_pipe. exact Hj.
      - apply Forall_forall. intros; exact I. }
    cbn [filter]. destruct (truthy (trim (fixLine 0 l0))).
    + cbn [tl]. apply Forall_filter_keep. exact Hrest.
    + apply Forall_tl. apply Forall_filter_keep. exact Hrest.
  - apply mapiFrom_not_nil. apply split_not_nil.
  - unfold mapi.
    apply (mapiFrom_Forall fixLine (fun l => countChar newline l = 0)).
    + intros j x _ Hx. apply fixLine_no_newline. exact Hx.
    + apply split_lines_clean.
Qed.

Lemma quotes_even_after_repair (kql : jsstring) (errors : list jsstring) :
  countChar squote (fixSyntaxErrors kql errors) mod 2 = 0
  /\ countChar dquote (fixSyntaxErrors kql errors) mod 2 = 0.
Proof.
  rewrite fixSyntaxErrors_steps.
  rewrite !countChar_fixLines; try reflexivity.
  unfold beforeLines. split.
  - rewrite countChar_closeQuote_other; [| reflexivity].
    apply countChar_closeQuote_even.
  - apply countChar_closeQuote_even.
Qed.

Lemma Forall_pushIf (P : jsstring -> Prop) (cond : bool) (e : jsstring)
  (l : list jsstring) :
  (cond = true -> P e) -> Forall P l -> Forall P (pushIf cond e l).
Proof.
  intros He Hl. unfold pushIf. destruct cond; [| exact Hl].
  apply Forall_app. split; [exact Hl |].
  constructor; [apply He; reflexivity | constructor].
Qed.

(** X1.  After one repair the checker can only report unbalanced parentheses,
    unbalanced brackets or strict (in)equality: quotes are even and every
    line that needs a pipe has one. *)
Theorem fixSyntaxErrors_lasting_errors (kql : jsstring)
  (errors : list jsstring) :
  Forall (fun e => In e lastingErrors)
    (validateSyntax (fixSyntaxErrors kql errors)).
Proof.
  destruct (quotes_even_after_repair kql errors) as [Hs Hd].
  pose proof (pipeErrors_after_fixLines (beforeLines kql)) as Hp.
  rewrite <- (fixSyntaxErrors_steps kql errors) in Hp.
  unfold validateSyntax. cbv zeta.
  rewrite Hp, app_nil_r, Hs, Hd.
  apply Forall_pushIf; [intros _; right; right; left; reflexivity |].
  apply Forall_pushIf; [intro H; discriminate H |].
  apply Forall_pushIf; [intro H; discriminate H |].
  apply Forall_pushIf; [intros _; right; left; reflexivity |].
  apply Forall_pushIf; [intros _; left; reflexivity |].
  constructor.
Qed.

Lemma repair_counts (kql : jsstring) (errors : list jsstring) :
  countChar lparen (fixSyntaxErrors kql errors) = countChar lparen kql
  /\ countChar rparen (fixSyntaxErrors kql errors)
     = Nat.max (countChar lparen kql) (countChar rparen kql)
  /\ countChar lbracket (fixSyntaxErrors kql errors) = countChar lbracket kql
  /\ countChar rbracket (fixSyntaxErrors kql errors)
     = Nat.max (countChar lbracket kql) (countChar rbracket kql).
Proof.
  rewrite fixSyntaxErrors_steps.
  rewrite !countChar_fixLines; try reflexivity.
  unfold beforeLines.
  rewrite !countChar_closeQuote_other; try reflexivity.
  split; [| split; [| split]].
  - rewrite (countChar_closeMissing_other lparen lbracket rbracket);
      [| reflexivity].
    rewrite (countChar_closeMissing_other lparen lparen rparen);
      [| reflexivity].
    apply countChar_replacements; reflexivity.
  - rewrite (countChar_closeMissing_other rparen lbracket rbracket);
      [| reflexivity].
    rewrite countChar_closeMissing_closer.
    rewrite !countChar_replacements; reflexivity.
  - rewrite (countChar_closeMissing_other lbracket lbracket rbracket);
      [| reflexivity].
    rewrite (countChar_closeMissing_other lbracket lparen rparen);
      [| reflexivity].
    apply countChar_replacements; reflexivity.
  - rewrite countChar_closeMissing_closer.
    rewrite (countChar_closeMissing_other lbracket lparen rparen);
      [| reflexivity].
    rewrite (countChar_closeMissing_other rbracket lparen rparen);
      [| reflexivity].
    rewrite !countChar_replacements; reflexivity.
Qed.

(** X2.  One repair adds exactly the closing parentheses and brackets that are
    missing, and removes none: afterwards the openers are as many as
    before, and the closers as many as the larger of the two counts. *)
Theorem fixSyntaxErrors_closes_missing (kql : jsstring)
  (errors : list jsstring) :
  countChar lparen (fixSyntaxErrors kql errors) = countChar lparen kql
  /\ countChar rparen (fixSyntaxErrors kql errors)
     = Nat.max (countChar lparen kql) (countChar rparen kql)
  /\ countChar lbracket (fixSyntaxErrors kql errors) = countChar lbracket kql
  /\ countChar rbracket (fixSyntaxErrors kql errors)
     = Nat.max (countChar lbracket kql) (countChar rbracket kql).
Proof. apply repair_counts. Qed.

End OneRepair.

(* ================================================================== *)
(** * Theorems: what the loop keeps and what it cannot repair *)
(* ================================================================== *)

Section LoopFacts.
Context {rt : Runtime}.
Import QueryRefiner Steps.

Lemma length_pushIf (cond : bool) (e : jsstring) (l : list jsstring) :
  List.length l <= List.length (pushIf cond e l).
Proof.
  unfold pushIf. destruct cond; [| apply Nat.le_refl].
  rewrite length_app. lia.
Qed.

(** Unequal counts of parentheses or of brackets are reported. *)
Lemma validateSyntax_unbalanced (kql : jsstring) :
  countChar lparen kql <> countChar rparen kql
  \/ countChar lbracket kql <> countChar rbracket kql ->
  (0 <? List.length (validateSyntax kql)) = true.
Proof.
  intro H. apply Nat.ltb_lt. unfold validateSyntax. cbv zeta.
  rewrite length_app.
  apply Nat.lt_le_trans with (m := 1); [lia |].
  apply Nat.le_trans with (m := List.length
    (pushIf (negb (countChar lbracket kql =? countChar rbracket kql))
       (js "Unbalanced brackets")
       (pushIf (negb (countChar lparen kql =? countChar rparen kql))
          (js "Unbalanced parentheses") []))).
  - destruct H as [H | H]; apply Nat.eqb_neq in H; rewrite H.
    + eapply Nat.le_trans; [| apply length_pushIf]. simpl. lia.
    + unfold pushIf at 1. cbn [negb]. rewrite length_app. simpl. lia.
  - eapply Nat.le_trans; [| apply Nat.le_add_r].
    do 3 (eapply Nat.le_trans; [| apply length_pushIf]).
    apply Nat.le_refl.
Qed.

Lemma refineLoop_excess (budget : nat) (schema : option SchemaNames) :
  forall q n errs fixes,
    (budget = 0 -> errs <> []) ->
    excess q ->
    isValid (refineLoop budget schema q n errs fixes) = false
    /\ attempts (refineLoop budget schema q n errs fixes) = n + budget
    /\ excess (query (refineLoop budget schema q n errs fixes)).
Proof.
  induction budget as [| budget IH]; intros q n errs fixes Hne Hex.
  - cbn. specialize (Hne eq_refl).
    destruct errs; [contradiction |].
    repeat split; [lia | exact Hex].
  - rewrite refineLoop_step.
    rewrite validateSyntax_unbalanced; [| unfold excess in Hex; lia].
    destruct (IH (fixSyntaxErrors q (validateSyntax q)) (n + 1)
                (errs ++ validateSyntax q)
                (fixes ++ [js "Fixed syntax errors: "
                           ++ join (js ", ") (validateSyntax q)]))
      as [Hv [Ha He]].
    + intros _ Heq. apply app_eq_nil in Heq. destruct Heq as [_ Heq].
      pose proof (validateSyntax_unbalanced q) as Hu.
      rewrite Heq in Hu. simpl in Hu.
      assert (false = true) by (apply Hu; unfold excess in Hex; lia).
      discriminate.
    + destruct (repair_counts q (validateSyntax q)) as [H1 [H2 [H3 H4]]].
      unfold excess in *. rewrite H1, H2, H3, H4. lia.
    + repeat split; [exact Hv | lia | exact He].
Qed.

Lemma excess_trim (kql : jsstring) : excess kql -> excess (trim kql).
Proof.
  unfold excess. rewrite !countChar_trim; try reflexivity. tauto.
Qed.

(** X3.  A query with more closing than opening parentheses, or brackets, is
    never repaired: [refineQuery] uses its three attempts, reports the
    result invalid, and the returned text still has the excess. *)
Theorem refineQuery_excess_closers (kql : jsstring)
  (schema : option SchemaNames) :
  excess kql ->
  isValid (refineQuery kql schema) = false
  /\ attempts (refineQuery kql schema) = 3
  /\ excess (query (refineQuery kql schema)).
Proof.
  intro H. unfold refineQuery.
  apply (refineLoop_excess maxAttempts schema (trim kql) 0 [] []).
  - discriminate.
  - apply excess_trim. exact H.
Qed.

Lemma refineLoop_bookkeeping (budget : nat) (schema : option SchemaNames) :
  forall q n errs fixes,
    List.length fixes = n -> n <= List.length errs ->
    List.length (QueryRefiner.fixes (refineLoop budget schema q n errs fixes))
    = attempts (refineLoop budget schema q n errs fixes)
    /\ (isValid (refineLoop budget schema q n errs fixes) = false ->
        attempts (refineLoop budget schema q n errs fixes)
        <= List.length (errors (refineLoop budget schema q n errs fixes))).
Proof.
  induction budget as [| budget IH]; intros q n errs fixes Hf He.
  - cbn. split; [exact Hf | intros _; exact He].
  - rewrite refineLoop_step.
    destruct (0 <? List.length (validateSyntax q)) eqn:Herr.
    + apply Nat.ltb_lt in Herr. apply IH.
      * rewrite length_app. simpl. lia.
      * rewrite length_app. lia.
    + cbn. split; [exact Hf | intro H; discriminate H].
Qed.

(** X5.  Every attempt of [refineQuery] records one fix description, and an
    invalid result lists at least one error per attempt. *)
Theorem refineQuery_bookkeeping (kql : jsstring)
  (schema : option SchemaNames) :
  List.length (fixes (refineQuery kql schema))
  = attempts (refineQuery kql schema)
  /\ (isValid (refineQuery kql schema) = false ->
      attempts (refineQuery kql schema)
      <= List.length (errors (refineQuery kql schema))).
Proof.
  unfold refineQuery. apply refineLoop_bookkeeping; [reflexivity | simpl; lia].
Qed.

Lemma refineLoop_Trimmed (budget : nat) (schema : option SchemaNames) :
  forall q n errs fixes,
    Trimmed q -> Trimmed (query (refineLoop budget schema q n errs fixes)).
Proof.
  induction budget as [| budget IH]; intros q n errs fixes Ht.
  - exact Ht.
  - rewrite refineLoop_step.
    destruct (0 <? List.length (validateSyntax q)) eqn:Herr.
    + apply IH. apply fixSyntaxErrors_Trimmed; [exact Ht |].
      intro Heq. rewrite Heq in Herr. discriminate Herr.
    + exact Ht.
Qed.

(** X6.  The text that [refineQuery] returns, valid or not, has no white space
    at either end: trimming it changes nothing. *)
Theorem refineQuery_returns_trimmed (kql : jsstring)
  (schema : option SchemaNames) :
  trim (query (refineQuery kql schema)) = query (refineQuery kql schema).
Proof.
  apply Trimmed_trim. unfold refineQuery.
  apply refineLoop_Trimmed. apply trim_Trimmed.
Qed.

(** X7.  A query whose trimmed text passes the checker comes back trimmed and
    otherwise untouched, valid, with no attempt; any other query costs at
    least one attempt. *)
Theorem refineQuery_clean_or_repaired (kql : jsstring)
  (schema : option SchemaNames) :
  (validateSyntax (trim kql) = [] ->
   refineQuery kql schema = mkResult (trim kql) true [] [] 0)
  /\ (validateSyntax (trim kql) <> [] ->
      1 <= attempts (refineQuery kql schema)).
Proof.
  unfold refineQuery, maxAttempts. rewrite refineLoop_step. split.
  - intro H. rewrite H. reflexivity.
  - intro H. destruct (validateSyntax (trim kql)) as [| e es] eqn:Hv;
      [contradiction |].
    cbn [List.length Nat.ltb Nat.leb].
    clear H. rewrite refineLoop_step.
    destruct (0 <? _).
    + rewrite refineLoop_step. destruct (0 <? _); cbn; lia.
    + cbn. lia.
Qed.

End LoopFacts.

(** A closing parenthesis too many: the theorem applies. *)
Lemma refineQuery_excess_closers_example :
  Steps.excess Inputs.excessClosing
  /\ QueryRefiner.isValid
       (@QueryRefiner.refineQuery asciiRuntime Inputs.excessClosing None)
     = false
  /\ QueryRefiner.attempts
       (@QueryRefiner.refineQuery asciiRuntime Inputs.excessClosing None) = 3
  /\ Steps.excess
       (QueryRefiner.query
          (@QueryRefiner.refineQuery asciiRuntime Inputs.excessClosing None)).
Proof.
  assert (H : Steps.excess Inputs.excessClosing).
  { left. vm_compute. lia. }
  split; [exact H |].
  exact (@refineQuery_excess_closers asciiRuntime Inputs.excessClosing None H).
Defined.

(* ================================================================== *)
(** * Theorems: the closest match *)
(* ================================================================== *)

Section ClosestMatchFacts.
Context {rt : Runtime}.
Import QueryRefiner Steps.

Lemma length_ratio_le_1 (a b : nat) :
  a <= b ->
  (inject_Z (Z.of_nat a) / inject_Z (Z.of_nat b) <= 1)%Q.
Proof.
  intro H. destruct b as [| b].
  - assert (a = 0) by lia. subst a. vm_compute. discriminate.
  - apply Qle_shift_div_r.
    + change 0%Q with (inject_Z 0). rewrite <- Zlt_Qlt. lia.
    + rewrite Qmult_1_l. rewrite <- Zle_Qle. lia.
Qed.

Lemma findClosestMatch_fold (target : jsstring) (candidates : list jsstring) :
  findClosestMatch target candidates
  = fst (fold_left (closestStep (toLowerCase target)) candidates (None, 0%Q)).
Proof. reflexivity. Qed.

(** The best match so far is always one of the candidates seen. *)
Lemma closest_fold_member (targetLower : jsstring) (all : list jsstring) :
  forall l best,
    (forall c, fst best = Some c -> In c all) ->
    (forall x, In x l -> In x all) ->
    forall c,
      fst (fold_left (closestStep targetLower) l best) = Some c -> In c all.
Proof.
  induction l as [| x t IH]; intros best Hbest Hl c Hc.
  - apply Hbest. exact Hc.
  - simpl in Hc. apply (IH (closestStep targetLower best x)).
    + intros c' Hc'. unfold closestStep in Hc'.
      destruct best as [bestMatch bestScore]. cbv zeta in Hc'.
      assert (Hx : In x all) by (apply Hl; left; reflexivity).
      repeat match type of Hc' with
             | context [if ?b then _ else _] => destruct b
             end;
        simpl in Hc'; try (injection Hc' as <-; exact Hx);
        apply Hbest; exact Hc'.
    + intros y Hy. apply Hl. right. exact Hy.
    + exact Hc.
Qed.

Lemma closest_fold_exact_kept (targetLower : jsstring) :
  forall l best,
    exactBest targetLower best ->
    exactBest targetLower (fold_left (closestStep targetLower) l best).
Proof.
  induction l as [| x t IH]; intros best Hbest; [exact Hbest |].
  simpl. apply IH. destruct Hbest as [c [Hc Hlow]]. subst best.
  unfold closestStep. cbv zeta.
  destruct (JSString.eqb (toLowerCase x) targetLower) eqn:Heq.
  - exists x. split; [reflexivity | apply eqb_eq; exact Heq].
  - destruct (includes (toLowerCase x) targetLower
              || includes targetLower (toLowerCase x)).
    + assert (Hle : Qle_bool
                (inject_Z (Z.of_nat (Nat.min (List.length (toLowerCase x))
                                       (List.length targetLower)))
                 / inject_Z (Z.of_nat (Nat.max (List.length (toLowerCase x))
                                         (List.length targetLower)))) 1
              = true).
      { apply Qle_bool_iff. apply length_ratio_le_1. lia. }
      rewrite Hle. exists c. split; [reflexivity | exact Hlow].
    + exists c. split; [reflexivity | exact Hlow].
Qed.

Lemma closest_fold_exact_reached (targetLower : jsstring) :
  forall l best,
    (exists c, In c l /\ toLowerCase c = targetLower) ->
    exactBest targetLower (fold_left (closestStep targetLower) l best).
Proof.
  induction l as [| x t IH]; intros best [c [Hin Hc]].
  - contradiction.
  - simpl. destruct (JSString.eqb (toLowerCase x) targetLower) eqn:Heq.
    + apply closest_fold_exact_kept.
      destruct best as [bestMatch bestScore].
      unfold closestStep. cbv zeta. rewrite Heq.
      exists x. split; [reflexivity | apply eqb_eq; exact Heq].
    + apply IH. destruct Hin as [Hx | Hin].
      * subst x. apply eqb_eq in Hc. rewrite Hc in Heq. discriminate Heq.
      * exists c. split; assumption.
Qed.

(** X8.  [findClosestMatch] never makes a name up: what it returns is one of
    the candidates. *)
Theorem findClosestMatch_is_candidate (target : jsstring)
  (candidates : list jsstring) :
  match findClosestMatch target candidates with
  | Some c => In c candidates
  | None => True
  end.
Proof.
  rewrite findClosestMatch_fold.
  destruct (fst (fold_left (closestStep (toLowerCase target)) candidates
                   (None, 0%Q))) as [c |] eqn:Hc; [| exact I].
  apply (closest_fold_member (toLowerCase target) candidates candidates
           (None, 0%Q)).
  - intros c' H. discriminate H.
  - intros x Hx. exact Hx.
  - exact Hc.
Qed.

(** X9.  When some candidate equals the target up to case, [findClosestMatch]
    returns such a candidate, however close a partial match is. *)
Theorem findClosestMatch_prefers_exact (target : jsstring)
  (candidates : list jsstring) :
  (exists c, In c candidates /\ sameUpToCase target c) ->
  exists c, findClosestMatch target candidates = Some c
            /\ In c candidates /\ sameUpToCase target c.
Proof.
  intro H. rewrite findClosestMatch_fold.
  destruct (closest_fold_exact_reached (toLowerCase target) candidates
              (None, 0%Q) H) as [c [Hc Hlow]].
  exists c. rewrite Hc. split; [reflexivity |]. split; [| exact Hlow].
  apply (closest_fold_member (toLowerCase target) candidates candidates
           (None, 0%Q)).
  - intros c' H'. discriminate H'.
  - intros x Hx. exact Hx.
  - rewrite Hc. reflexivity.
Qed.

End ClosestMatchFacts.

(** [timegenerated] among column names: the match up to case wins over
    the partial match met before it. *)
Lemma findClosestMatch_prefers_exact_example :
  (exists c, In c Inputs.columnNames
             /\ @Steps.sameUpToCase asciiRuntime (js "timegenerated") c)
  /\ exists c,
       @QueryRefiner.findClosestMatch asciiRuntime (js "timegenerated")
         Inputs.columnNames = Some c
       /\ In c Inputs.columnNames
       /\ @Steps.sameUpToCase asciiRuntime (js "timegenerated") c.
Proof.
  assert (H : exists c, In c Inputs.columnNames
                        /\ @Steps.sameUpToCase asciiRuntime
                             (js "timegenerated") c).
  { exists (js "TimeGenerated"). split.
    - right. right. left. reflexivity.
    - vm_compute. reflexivity. }
  split; [exact H |].
  exact (@findClosestMatch_prefers_exact asciiRuntime (js "timegenerated")
           Inputs.columnNames H).
Defined.

(* ================================================================== *)
(** * Theorems: the semantic repair and the validator's warnings *)
(* ================================================================== *)

Section SemanticRepairFacts.
Context {rt : Runtime}.
Import QueryRefiner Steps.

Lemma startsWith_prefix (p : jsstring) :
  forall s, startsWith s p = true <-> exists t, s = p ++ t.
Proof.
  induction p as [| a p' IH]; intro s.
  - split; [intros _; exists s; reflexivity |].
    intros _. destruct s; reflexivity.
  - destruct s as [| b s']; simpl.
    + split; [discriminate | intros [t H]; discriminate H].
    + rewrite andb_true_iff, N.eqb_eq, IH. split.
      * intros [Hab [t Ht]]. subst. exists t. reflexivity.
      * intros [t Ht]. injection Ht as Hb Hs. subst.
        split; [reflexivity | exists t; reflexivity].
Qed.

Lemma includes_occurs (p s : jsstring) :
  includes s p = true <-> exists a b, s = a ++ p ++ b.
Proof.
  induction s as [| x t IH].
  - cbn [includes]. rewrite orb_false_r, startsWith_prefix. split.
    + intros [u Hu]. exists [], u. exact Hu.
    + intros [a [b H]]. destruct a; [exists b; exact H | discriminate H].
  - cbn [includes]. rewrite orb_true_iff, startsWith_prefix, IH. split.
    + intros [[u Hu] | [a [b H]]].
      * exists [], u. exact Hu.
      * exists (x :: a), b. rewrite H. reflexivity.
    + intros [a [b H]]. destruct a as [| y a'].
      * left. exists b. exact H.
      * right. injection H as Hx Ht. exists a', b. exact Ht.
Qed.

(** A pattern does not occur across a character that it does not
    contain. *)
Lemma includes_across (sep : N) (p x y : jsstring) :
  ~ In sep p ->
  includes (x ++ sep :: y) p = true ->
  includes x p = true \/ includes y p = true.
Proof.
  intros Hsep H. apply includes_occurs in H. destruct H as [a [b H]].
  apply app_eq_app in H.
  destruct H as [l [[Hx Hr] | [Ha Hr]]].
  - (* the occurrence starts inside [x] *)
    apply app_eq_app in Hr. destruct Hr as [m [[Hp Hy] | [Hl Hb]]].
    + destruct m as [| c m'].
      * left. apply includes_occurs. exists a, [].
        rewrite Hx, Hp, !app_nil_r. reflexivity.
      * injection Hy as Hc Hy. subst c. exfalso. apply Hsep.
        rewrite Hp. apply in_or_app. right. left. reflexivity.
    + left. apply includes_occurs. exists a, m.
      rewrite Hx, Hl. reflexivity.
  - (* the occurrence starts after [x] *)
    destruct l as [| c l'].
    + destruct p as [| c p'].
      * left. apply includes_occurs. exists x, []. rewrite app_nil_r.
        reflexivity.
      * simpl in Hr. injection Hr as Hc Hr. subst c. exfalso.
        apply Hsep. left. reflexivity.
    + simpl in Hr. injection Hr as Hc Hr. right.
      apply includes_occurs. exists l', b. exact Hr.
Qed.

Lemma notFound_not_in_word (name : jsstring) :
  Forall (fun c => isWordChar c = true) name ->
  includes name (js "not found") = false.
Proof.
  intro Hw. destruct (includes name (js "not found")) eqn:H; [| reflexivity].
  apply includes_occurs in H. destruct H as [a [b H]]. subst name.
  apply Forall_app in Hw. destruct Hw as [_ Hw].
  apply Forall_app in Hw. destruct Hw as [Hw _].
  change (js "not found") with (js "not" ++ 32%N :: js "found") in Hw.
  apply Forall_app in Hw. destruct Hw as [_ Hw].
  inversion Hw as [| c l Hc Hl]. discriminate Hc.
Qed.

(** A warning of [validateSemantics] about a name made of word characters
    does not contain the words that [fixSemanticErrors] looks for. *)
Lemma warning_lacks_notFound (kind name : jsstring) :
  includes kind (js "not found") = false ->
  Forall (fun c => isWordChar c = true) name ->
  includes
    (kind ++ [dquote] ++ name ++ [dquote]
     ++ js " not in provided schema (may still be valid)")
    (js "not found") = false.
Proof.
  intros Hkind Hname.
  assert (Hq : ~ In dquote (js "not found")).
  { vm_compute. intuition discriminate. }
  match goal with |- ?x = false => destruct x eqn:H end; [| reflexivity].
  change (kind ++ [dquote] ++ name ++ [dquote]
          ++ js " not in provided schema (may still be valid)")
    with (kind ++ dquote ::
          (name ++ dquote ::
           js " not in provided schema (may still be valid)")) in H.
  apply (includes_across dquote _ _ _ Hq) in H. destruct H as [H | H].
  - rewrite H in Hkind. discriminate Hkind.
  - apply (includes_across dquote _ _ _ Hq) in H. destruct H as [H | H].
    + rewrite (notFound_not_in_word name Hname) in H. discriminate H.
    + vm_compute in H. discriminate H.
Qed.

Lemma takeWhile_Forall (p : N -> bool) (s : jsstring) :
  Forall (fun c => p c = true) (takeWhile p s).
Proof.
  induction s as [| x t IH]; simpl; [constructor |].
  destruct (p x) eqn:Hx; [| constructor].
  constructor; [exact Hx | exact IH].
Qed.

Lemma firstn_within_run (p : N -> bool) (s : jsstring) :
  forall k, k <= List.length (takeWhile p s) ->
            Forall (fun c => p c = true) (firstn k s).
Proof.
  induction s as [| x t IH]; intros k Hk.
  - rewrite firstn_nil. constructor.
  - destruct k as [| k]; [constructor |].
    simpl in Hk. destruct (p x) eqn:Hx; simpl in Hk; [| lia].
    simpl. constructor; [exact Hx |]. apply IH. lia.
Qed.

Lemma tableMatchFrom_word (s : jsstring) :
  forall prevWord word,
    tableMatchFrom prevWord s = Some word ->
    Forall (fun c => isWordChar c = true) word.
Proof.
  induction s as [| x t IH]; intros prevWord word H; [discriminate H |].
  cbn [tableMatchFrom] in H.
  destruct (negb prevWord && isWordChar x).
  - destruct (tablePatternAt (x :: t)) as [w |] eqn:Hp.
    + injection H as <-. unfold tablePatternAt in Hp.
      destruct (dropWhile isWhiteSpace (dropWhile isWordChar (x :: t)))
        as [| c rest]; [discriminate Hp |].
      destruct (N.eqb c pipe
                && startsWithCI (dropWhile isWhiteSpace rest) (js "where"));
        [| discriminate Hp].
      injection Hp as <-. apply (takeWhile_Forall isWordChar (x :: t)).
    + apply (IH _ _ H).
  - apply (IH _ _ H).
Qed.

Lemma columnPatternUpTo_word (s : jsstring) :
  forall k word len,
    k <= List.length (takeWhile isWordChar s) ->
    columnPatternUpTo k s = Some (word, len) ->
    Forall (fun c => isWordChar c = true) word.
Proof.
  induction k as [| k IH]; intros word len Hk H; [discriminate H |].
  cbn [columnPatternUpTo] in H. cbv zeta in H.
  destruct (operatorAt _).
  - injection H as <- _.
    apply (firstn_within_run isWordChar s (S k)). exact Hk.
  - apply (IH word len); [lia | exact H].
Qed.

Lemma columnMatchesFrom_word (s : jsstring) :
  forall prevWord skip,
    Forall (Forall (fun c => isWordChar c = true))
      (columnMatchesFrom prevWord skip s).
Proof.
  induction s as [| x t IH]; intros prevWord skip; [constructor |].
  cbn [columnMatchesFrom]. destruct skip as [| k]; [| apply IH].
  destruct (negb prevWord && isWordChar x); [| apply IH].
  destruct (columnPatternAt (x :: t)) as [[word len] |] eqn:Hp; [| apply IH].
  constructor; [| apply IH].
  unfold columnPatternAt in Hp.
  apply (columnPatternUpTo_word _ _ _ _ (Nat.le_refl _) Hp).
Qed.

Lemma tableWarnings_lack_notFound (kql : jsstring) (schema : SchemaNames) :
  Forall (fun w => includes w (js "not found") = false)
    (tableWarnings kql schema).
Proof.
  unfold tableWarnings.
  destruct (tableMatchFrom false kql) as [tableName |] eqn:Hm;
    [| constructor].
  destruct (knows (tables schema) tableName); [constructor |].
  constructor; [| constructor].
  apply (warning_lacks_notFound (js "Table ")); [reflexivity |].
  apply (tableMatchFrom_word _ _ _ Hm).
Qed.

Lemma checkColumn_lacks_notFound (schema : SchemaNames)
  (state : list jsstring * list jsstring) (columnName : jsstring) :
  Forall (fun c => isWordChar c = true) columnName ->
  Forall (fun w => includes w (js "not found") = false) (snd state) ->
  Forall (fun w => includes w (js "not found") = false)
    (snd (checkColumn schema state columnName)).
Proof.
  intros Hname Hstate. unfold checkColumn.
  destruct state as [checkedColumns warnings]. cbv zeta.
  destruct (member (toLowerCase columnName) checkedColumns); [exact Hstate |].
  destruct (negb (member (toLowerCase columnName) keywords)
            && (0 <? List.length (columns schema))
            && negb (knows (columns schema) columnName));
    [| exact Hstate].
  cbn [snd] in *. apply Forall_app. split; [exact Hstate |].
  constructor; [| constructor].
  apply (warning_lacks_notFound (js "Column ")); [reflexivity | exact Hname].
Qed.

Lemma semanticWarnings_lack_notFound (kql : jsstring) (schema : SchemaNames) :
  Forall (fun w => includes w (js "not found") = false)
    (semanticWarnings kql schema).
Proof.
  unfold semanticWarnings.
  pose proof (columnMatchesFrom_word kql false 0) as Hnames.
  pose proof (tableWarnings_lack_notFound kql schema) as Hstart.
  generalize dependent (columnMatchesFrom false 0 kql).
  change (tableWarnings kql schema)
    with (snd (@nil jsstring, tableWarnings kql schema)) in Hstart.
  generalize dependent (@nil jsstring, tableWarnings kql schema).
  intros state Hstate names. revert state Hstate.
  induction names as [| name rest IH]; intros state Hstate Hnames.
  - exact Hstate.
  - inversion Hnames as [| n r Hn Hr]; subst. simpl.
    apply IH; [| exact Hr]. apply checkColumn_lacks_notFound; assumption.
Qed.

Lemma fixName_skips (kind : jsstring) (names : list jsstring)
  (error fixed : jsstring) :
  includes error (js "not found") = false ->
  fixName kind names error fixed = fixed.
Proof.
  intro H. unfold fixName. rewrite H, andb_false_r. reflexivity.
Qed.

Lemma fixSemanticErrors_skips (errors : list jsstring) :
  forall kql schema,
    Forall (fun e => includes e (js "not found") = false) errors ->
    fixSemanticErrors kql errors schema = kql.
Proof.
  unfold fixSemanticErrors.
  induction errors as [| e rest IH]; intros kql schema H; [reflexivity |].
  inversion H as [| e' rest' He Hrest]; subst. simpl.
  rewrite !(fixName_skips _ _ _ _ He). apply IH. exact Hrest.
Qed.

(** X10.  [fixSemanticErrors] acts on the messages that contain [not found] and
    on no other: a list without such a message leaves the query as it
    is. *)
Theorem fixSemanticErrors_needs_not_found (kql : jsstring)
  (errors : list jsstring) (schema : SchemaNames) :
  Forall (fun e => includes e (js "not found") = false) errors ->
  fixSemanticErrors kql errors schema = kql.
Proof. apply fixSemanticErrors_skips. Qed.

(** X11.  The warnings that [validateSemantics] words, were they returned, would
    repair nothing: they say [not in provided schema], and
    [fixSemanticErrors] on them leaves the query as it is. *)
Theorem fixSemanticErrors_ignores_warnings (kql : jsstring)
  (schema : SchemaNames) :
  fixSemanticErrors kql (semanticWarnings kql schema) schema = kql.
Proof.
  apply fixSemanticErrors_skips. apply semanticWarnings_lack_notFound.
Qed.

End SemanticRepairFacts.

(** A list of the checker's own messages: the theorem applies. *)
Lemma fixSemanticErrors_needs_not_found_example :
  Forall (fun e => includes e (js "not found") = false)
    Steps.lastingErrors
  /\ @QueryRefiner.fixSemanticErrors asciiRuntime Inputs.excessClosing
       Steps.lastingErrors
       (QueryRefiner.mkNames Inputs.columnNames Inputs.columnNames)
     = Inputs.excessClosing.
Proof.
  assert (H : Forall (fun e => includes e (js "not found") = false)
                Steps.lastingErrors).
  { repeat constructor. }
  split; [exact H |].
  exact (@fixSemanticErrors_needs_not_found asciiRuntime Inputs.excessClosing
           Steps.lastingErrors
           (QueryRefiner.mkNames Inputs.columnNames Inputs.columnNames) H).
Defined.

(* ================================================================== *)
(** * Theorems: ranking and selection in the schema refiner *)
(* ================================================================== *)

Section RankingFacts.
Context {rt : Runtime}.
Import SchemaRefiner.

Lemma sumOver_from {A : Type} (f : A -> Z) (l : list A) :
  forall a, fold_left (fun acc x => (acc + f x)%Z) l a = (a + sumOver f l)%Z.
Proof.
  unfold sumOver. induction l as [| x t IH]; intro a; simpl.
  - lia.
  - rewrite IH, (IH (f x)). lia.
Qed.

Lemma sumOver_zero {A : Type} (f : A -> Z) (l : list A) :
  (forall x, In x l -> f x = 0%Z) -> sumOver f l = 0%Z.
Proof.
  induction l as [| x t IH]; intro H; [reflexivity |].
  unfold sumOver. simpl. rewrite sumOver_from, IH.
  - rewrite (H x); [reflexivity | left; reflexivity].
  - intros y Hy. apply H. right. exact Hy.
Qed.

Lemma tableScore_no_entity (table : TableSchema.t) : tableScore [] table = 0%Z.
Proof.
  unfold tableScore. cbv zeta.
  change (sumOver _ (@nil jsstring)) with 0%Z.
  destruct (TableSchema.description table) as [d |];
    [destruct (truthy d) |];
    (destruct (TableSchema.domain table) as [tags |];
     [rewrite (sumOver_zero _ tags) by reflexivity |];
     rewrite (sumOver_zero _ (TableSchema.columns table)) by reflexivity;
     reflexivity).
Qed.

Lemma columnScore_no_entity (column : ColumnSchema.t) :
  columnScore [] column = 0%Z.
Proof.
  unfold columnScore. cbv zeta.
  destruct (ColumnSchema.description column) as [d |];
    [destruct (truthy d) |]; reflexivity.
Qed.

Lemma rankByRelevance_all_zero {T : Type} (matches : list (Scored T Z)) :
  (forall m, In m matches -> score m = 0%Z) -> rankByRelevance matches = [].
Proof.
  intro H. unfold rankByRelevance.
  replace (filter (fun m => (0 <? score m)%Z) matches) with (@nil (Scored T Z));
    [reflexivity |].
  symmetry. induction matches as [| m t IH]; [reflexivity |].
  simpl. rewrite (H m) by (left; reflexivity). simpl.
  apply IH. intros x Hx. apply H. right. exact Hx.
Qed.

(** X12.  A question from which no entity is extracted selects nothing: no
    table, no column, relevance 0. *)
Theorem refineSchema_no_entity (nlq : jsstring)
  (fullSchema : DatabaseSchema.t) :
  extractEntities nlq = [] ->
  RefinedSchema.tables (refineSchema nlq fullSchema) = []
  /\ RefinedSchema.columns (refineSchema nlq fullSchema) = []
  /\ (RefinedSchema.relevance (refineSchema nlq fullSchema) == 0)%Q.
Proof.
  intro He.
  assert (Ht : rankedTables nlq fullSchema = []).
  { unfold rankedTables. rewrite He. apply rankByRelevance_all_zero.
    intros m Hm. unfold matchTables in Hm. apply in_map_iff in Hm.
    destruct Hm as [t [<- _]]. apply tableScore_no_entity. }
  assert (Hc : rankedColumns nlq fullSchema = []).
  { unfold rankedColumns. rewrite He. apply rankByRelevance_all_zero.
    intros m Hm. unfold matchColumns in Hm. apply in_flat_map in Hm.
    destruct Hm as [t [_ Hm]]. apply in_map_iff in Hm.
    destruct Hm as [c [<- _]]. apply columnScore_no_entity. }
  unfold refineSchema. cbn [RefinedSchema.tables RefinedSchema.columns
                            RefinedSchema.relevance].
  rewrite Ht, Hc. repeat split; reflexivity.
Qed.

Lemma rankByRelevance_perm {T : Type} (matches : list (Scored T Z)) :
  Permutation (filter (fun m => (0 <? score m)%Z) matches)
    (rankByRelevance matches).
Proof. unfold rankByRelevance. apply stableSort_perm. Qed.

Lemma rankByRelevance_keeps {T : Type} (matches : list (Scored T Z))
  (m : Scored T Z) :
  In m matches -> (0 < score m)%Z -> In m (rankByRelevance matches).
Proof.
  intros Hin Hpos. eapply Permutation_in; [apply rankByRelevance_perm |].
  apply filter_In. split; [exact Hin | apply Z.ltb_lt; exact Hpos].
Qed.

Lemma StronglySorted_app_order {A : Type} (R : A -> A -> Prop)
  (a b : list A) :
  StronglySorted R (a ++ b) ->
  forall x y, In x a -> In y b -> R x y.
Proof.
  induction a as [| h t IH]; intros Hs x y Hx Hy; [contradiction |].
  simpl in Hs. inversion Hs as [| h' t' Hst Hall]; subst.
  destruct Hx as [Hx | Hx].
  - subst x. rewrite Forall_forall in Hall. apply Hall.
    apply in_or_app. right. exact Hy.
  - apply (IH Hst x y Hx Hy).
Qed.

Lemma StronglySorted_prefix {A : Type} (R : A -> A -> Prop) (a b : list A) :
  StronglySorted R (a ++ b) -> StronglySorted R a.
Proof.
  induction a as [| h t IH]; intro Hs; [constructor |].
  simpl in Hs. inversion Hs as [| h' t' Hst Hall]; subst.
  constructor; [apply IH; exact Hst |].
  apply Forall_app in Hall. destruct Hall as [Hall _]. exact Hall.
Qed.

(** The selection is a correct top-k: a match with a positive score is
    selected, or [k] matches are selected and none scores less. *)
Lemma selectTopK_correct {T : Type} (matches : list (Scored T Z)) (k : nat)
  (m : Scored T Z) :
  In m matches -> (0 < score m)%Z ->
  In m (selectTopK (rankByRelevance matches) k)
  \/ (List.length (selectTopK (rankByRelevance matches) k) = k
      /\ Forall (fun r => (score m <= score r)%Z)
           (selectTopK (rankByRelevance matches) k)).
Proof.
  intros Hin Hpos. unfold selectTopK, slice0.
  pose proof (rankByRelevance_keeps matches m Hin Hpos) as Hm.
  pose proof (rankByRelevance_sorted matches) as Hs.
  rewrite <- (firstn_skipn k (rankByRelevance matches)) in Hm, Hs.
  apply in_app_or in Hm. destruct Hm as [Hm | Hm]; [left; exact Hm |].
  right. split.
  - rewrite length_firstn. apply Nat.min_l.
    destruct (Nat.le_gt_cases k (List.length (rankByRelevance matches)))
      as [Hle | Hgt]; [exact Hle |].
    rewrite skipn_all2 in Hm by lia. contradiction.
  - apply Forall_forall. intros r Hr.
    apply (StronglySorted_app_order _ _ _ Hs r m Hr Hm).
Qed.

Lemma selectTopK_sorted {T : Type} (matches : list (Scored T Z)) (k : nat) :
  StronglySorted (fun a b => (score b <= score a)%Z)
    (selectTopK (rankByRelevance matches) k).
Proof.
  unfold selectTopK, slice0.
  apply (StronglySorted_prefix _ _ (skipn k (rankByRelevance matches))).
  rewrite firstn_skipn. apply rankByRelevance_sorted.
Qed.

Lemma StronglySorted_map {A B : Type} (R : A -> A -> Prop)
  (R' : B -> B -> Prop) (f : A -> B) (l : list A) :
  (forall a b, In a l -> In b l -> R a b -> R' (f a) (f b)) ->
  StronglySorted R l -> StronglySorted R' (map f l).
Proof.
  intros Hf Hs. induction Hs as [| a t Hst IH Hall]; [constructor |].
  simpl. constructor.
  - apply IH. intros x y Hx Hy. apply Hf; right; assumption.
  - apply Forall_map, Forall_forall. intros b Hb.
    rewrite Forall_forall in Hall.
    apply Hf; [left; reflexivity | right; exact Hb | apply Hall; exact Hb].
Qed.

(** The scored tables and columns that are ranked carry the score of
    their item. *)
Lemma rankedTables_score (nlq : jsstring) (fullSchema : DatabaseSchema.t)
  (m : Scored TableSchema.t Z) :
  In m (rankedTables nlq fullSchema) ->
  score m = tableScore (extractEntities nlq) (item m).
Proof.
  intro H. unfold rankedTables in H. apply rankByRelevance_In in H.
  destruct H as [H _]. unfold matchTables in H. apply in_map_iff in H.
  destruct H as [t [<- _]]. reflexivity.
Qed.

Lemma rankedColumns_score (nlq : jsstring) (fullSchema : DatabaseSchema.t)
  (m : Scored ColumnSchema.t Z) :
  In m (rankedColumns nlq fullSchema) ->
  score m = columnScore (extractEntities nlq) (item m).
Proof.
  intro H. unfold rankedColumns in H. apply rankByRelevance_In in H.
  destruct H as [H _]. unfold matchColumns in H. apply in_flat_map in H.
  destruct H as [t [_ H]]. apply in_map_iff in H.
  destruct H as [c [<- _]]. reflexivity.
Qed.

Lemma topScore_max {T : Type} (matches : list (Scored T Z))
  (m : Scored T Z) :
  In m matches -> (score m <= topScore (rankByRelevance matches))%Z.
Proof.
  intro Hin.
  assert (Hnonneg : (0 <= topScore (rankByRelevance matches))%Z).
  { destruct (rankByRelevance matches) as [| h t] eqn:Hr; simpl; [lia |].
    assert (Hh : In h (rankByRelevance matches))
      by (rewrite Hr; left; reflexivity).
    apply rankByRelevance_In in Hh. lia. }
  destruct (Z.lt_ge_cases 0 (score m)) as [Hpos | Hle]; [| lia].
  pose proof (rankByRelevance_keeps matches m Hin Hpos) as Hm.
  pose proof (rankByRelevance_sorted matches) as Hs.
  destruct (rankByRelevance matches) as [| h t]; [contradiction |].
  simpl. destruct Hm as [Hm | Hm]; [subst; lia |].
  inversion Hs as [| h' t' _ Hall]; subst.
  rewrite Forall_forall in Hall. apply Hall. exact Hm.
Qed.

(** X13.  The tables and the columns that [refineSchema] returns all have a
    positive score, and come in the order of their scores, highest
    first. *)
Theorem refineSchema_ranked (nlq : jsstring) (fullSchema : DatabaseSchema.t) :
  Forall (fun t => (0 < tableScore (extractEntities nlq) t)%Z)
    (RefinedSchema.tables (refineSchema nlq fullSchema))
  /\ StronglySorted
       (fun a b => (tableScore (extractEntities nlq) b
                    <= tableScore (extractEntities nlq) a)%Z)
       (RefinedSchema.tables (refineSchema nlq fullSchema))
  /\ Forall (fun c => (0 < columnScore (extractEntities nlq) c)%Z)
       (RefinedSchema.columns (refineSchema nlq fullSchema))
  /\ StronglySorted
       (fun a b => (columnScore (extractEntities nlq) b
                    <= columnScore (extractEntities nlq) a)%Z)
       (RefinedSchema.columns (refineSchema nlq fullSchema)).
Proof.
  unfold refineSchema.
  cbn [RefinedSchema.tables RefinedSchema.columns].
  assert (Ht : forall m, In m (selectTopK (rankedTables nlq fullSchema) 5) ->
                         In m (rankedTables nlq fullSchema))
    by (intros m; apply slice0_In).
  assert (Hc : forall m, In m (selectTopK (rankedColumns nlq fullSchema) 20) ->
                         In m (rankedColumns nlq fullSchema))
    by (intros m; apply slice0_In).
  split; [| split; [| split]].
  - apply Forall_map, Forall_forall. intros m Hm. apply Ht in Hm.
    rewrite <- (rankedTables_score nlq fullSchema m Hm).
    apply rankByRelevance_In in Hm. apply Hm.
  - apply (StronglySorted_map (fun a b => (score b <= score a)%Z)).
    + intros a b Ha Hb Hab.
      rewrite <- (rankedTables_score nlq fullSchema a (Ht a Ha)).
      rewrite <- (rankedTables_score nlq fullSchema b (Ht b Hb)).
      exact Hab.
    + apply selectTopK_sorted.
  - apply Forall_map, Forall_forall. intros m Hm. apply Hc in Hm.
    rewrite <- (rankedColumns_score nlq fullSchema m Hm).
    apply rankByRelevance_In in Hm. apply Hm.
  - apply (StronglySorted_map (fun a b => (score b <= score a)%Z)).
    + intros a b Ha Hb Hab.
      rewrite <- (rankedColumns_score nlq fullSchema a (Hc a Ha)).
      rewrite <- (rankedColumns_score nlq fullSchema b (Hc b Hb)).
      exact Hab.
    + apply selectTopK_sorted.
Qed.

Lemma topK_items {T : Type} (f : T -> Z) (matches : list (Scored T Z))
  (k : nat) (t : T) :
  (forall m, In m matches -> score m = f (item m)) ->
  In (mkScored t (f t)) matches -> (0 < f t)%Z ->
  In t (map (@item _ _) (selectTopK (rankByRelevance matches) k))
  \/ (List.length (map (@item T Z) (selectTopK (rankByRelevance matches) k))
      = k
      /\ Forall (fun r => (f t <= f r)%Z)
           (map (@item _ _) (selectTopK (rankByRelevance matches) k))).
Proof.
  intros Hscore Hin Hpos.
  destruct (selectTopK_correct matches k (mkScored t (f t)) Hin Hpos)
    as [H | [Hlen Hall]].
  - left. apply in_map_iff. exists (mkScored t (f t)).
    split; [reflexivity | exact H].
  - right. split; [rewrite length_map; exact Hlen |].
    apply Forall_map, Forall_forall. intros m Hm.
    rewrite Forall_forall in Hall. specialize (Hall m Hm). simpl in Hall.
    rewrite <- (Hscore m); [exact Hall |].
    apply slice0_In in Hm. apply rankByRelevance_In in Hm. apply Hm.
Qed.

(** X14.  The selection of [refineSchema] is a correct top 5 and top 20: a table
    of the schema with a positive score is returned, unless 5 tables are
    returned and each scores at least as much; likewise for a column, with
    20. *)
Theorem refineSchema_top_k (nlq : jsstring) (fullSchema : DatabaseSchema.t) :
  Forall
    (fun t =>
       (0 < tableScore (extractEntities nlq) t)%Z ->
       In t (RefinedSchema.tables (refineSchema nlq fullSchema))
       \/ (List.length (RefinedSchema.tables (refineSchema nlq fullSchema)) = 5
           /\ Forall (fun r => (tableScore (extractEntities nlq) t
                                <= tableScore (extractEntities nlq) r)%Z)
                (RefinedSchema.tables (refineSchema nlq fullSchema))))
    (DatabaseSchema.tables fullSchema)
  /\
  Forall
    (fun t =>
       Forall
         (fun c =>
            (0 < columnScore (extractEntities nlq) c)%Z ->
            In c (RefinedSchema.columns (refineSchema nlq fullSchema))
            \/ (List.length
                  (RefinedSchema.columns (refineSchema nlq fullSchema)) = 20
                /\ Forall (fun r => (columnScore (extractEntities nlq) c
                                     <= columnScore (extractEntities nlq) r)%Z)
                     (RefinedSchema.columns (refineSchema nlq fullSchema))))
         (TableSchema.columns t))
    (DatabaseSchema.tables fullSchema).
Proof.
  unfold refineSchema, rankedTables, rankedColumns.
  cbn [RefinedSchema.tables RefinedSchema.columns].
  split; apply Forall_forall; intros t Ht.
  - intro Hpos.
    apply (topK_items (tableScore (extractEntities nlq))); [| | exact Hpos].
    + intros m Hm. unfold matchTables in Hm. apply in_map_iff in Hm.
      destruct Hm as [x [<- _]]. reflexivity.
    + unfold matchTables. apply in_map_iff. exists t.
      split; [reflexivity | exact Ht].
  - apply Forall_forall. intros c Hc Hpos.
    apply (topK_items (columnScore (extractEntities nlq))); [| | exact Hpos].
    + intros m Hm. unfold matchColumns in Hm. apply in_flat_map in Hm.
      destruct Hm as [x [_ Hm]]. apply in_map_iff in Hm.
      destruct Hm as [y [<- _]]. reflexivity.
    + unfold matchColumns. apply in_flat_map. exists t.
      split; [exact Ht |]. apply in_map_iff. exists c.
      split; [reflexivity | exact Hc].
Qed.

(** X15.  The relevance is at least the average of the scores of any table and
    any column of the schema: it averages the two highest scores. *)
Theorem refineSchema_relevance_bound (nlq : jsstring)
  (fullSchema : DatabaseSchema.t) :
  Forall
    (fun t =>
       Forall
         (fun t' =>
            Forall
              (fun c =>
                 (inject_Z (tableScore (extractEntities nlq) t
                            + columnScore (extractEntities nlq) c) / 2
                  <= RefinedSchema.relevance (refineSchema nlq fullSchema))%Q)
              (TableSchema.columns t'))
         (DatabaseSchema.tables fullSchema))
    (DatabaseSchema.tables fullSchema).
Proof.
  apply Forall_forall. intros t Ht.
  apply Forall_forall. intros t' Ht'.
  apply Forall_forall. intros c Hc.
  unfold refineSchema, computeOverallRelevance, rankedTables, rankedColumns.
  cbn [RefinedSchema.relevance].
  assert (H1 : (tableScore (extractEntities nlq) t
                <= topScore (rankByRelevance
                     (matchTables (extractEntities nlq)
                        (DatabaseSchema.tables fullSchema))))%Z).
  { apply (topScore_max _ (mkScored t (tableScore (extractEntities nlq) t))).
    unfold matchTables. apply in_map_iff. exists t.
    split; [reflexivity | exact Ht]. }
  assert (H2 : (columnScore (extractEntities nlq) c
                <= topScore (rankByRelevance
                     (matchColumns (extractEntities nlq)
                        (DatabaseSchema.tables fullSchema))))%Z).
  { apply (topScore_max _ (mkScored c (columnScore (extractEntities nlq) c))).
    unfold matchColumns. apply in_flat_map. exists t'.
    split; [exact Ht' |]. apply in_map_iff. exists c.
    split; [reflexivity | exact Hc]. }
  unfold Qdiv. apply Qmult_le_compat_r.
  - rewrite <- Zle_Qle. lia.
  - vm_compute. discriminate.
Qed.

(** X16.  The entities of a question have no duplicates; they hold every domain
    term found in the lowered question and every quoted substring, without
    its quotes. *)
Theorem extractEntities_contents (nlq : jsstring) :
  NoDup (extractEntities nlq)
  /\ Forall (fun term => includes (toLowerCase nlq) term = true ->
                         In term (extractEntities nlq))
       domainTerms
  /\ Forall (fun m => In (stripQuotes m) (extractEntities nlq))
       (quotedMatches nlq).
Proof.
  unfold extractEntities. cbv zeta. split; [apply dedup_NoDup |].
  split; apply Forall_forall; intros x Hx.
  - intro Hinc. apply dedup_In. apply in_or_app. left.
    apply in_or_app. left. apply filter_In. split; assumption.
  - apply dedup_In. apply in_or_app. left. apply in_or_app. right.
    apply in_map. exact Hx.
Qed.

End RankingFacts.

(** A question without a domain term, a quoted substring or a capitalized
    word has no entity: the theorem applies. *)
Lemma refineSchema_no_entity_example :
  @SchemaRefiner.extractEntities asciiRuntime Inputs.plainQuestion = []
  /\ RefinedSchema.tables
       (@SchemaRefiner.refineSchema asciiRuntime Inputs.plainQuestion
          NL2KQLEngine.createDefaultSchema) = []
  /\ RefinedSchema.columns
       (@SchemaRefiner.refineSchema asciiRuntime Inputs.plainQuestion
          NL2KQLEngine.createDefaultSchema) = []
  /\ (RefinedSchema.relevance
        (@SchemaRefiner.refineSchema asciiRuntime Inputs.plainQuestion
           NL2KQLEngine.createDefaultSchema) == 0)%Q.
Proof.
  assert (H : @SchemaRefiner.extractEntities asciiRuntime
                Inputs.plainQuestion = []).
  { vm_compute. reflexivity. }
  split; [exact H |].
  exact (@refineSchema_no_entity asciiRuntime Inputs.plainQuestion
           NL2KQLEngine.createDefaultSchema H).
Defined.

(* ================================================================== *)
(** * Theorems: tokens, similarity and the selection of examples *)
(* ================================================================== *)

Section SelectorFacts.
Context {rt : Runtime}.
Import FewShotSelector.

Lemma splitRuns_pieces (Q : N -> Prop) (s : jsstring) :
  Forall Q s ->
  forall inRun,
    Forall (Forall (fun c => Q c /\ isWhiteSpace c = false))
      (splitRuns inRun s).
Proof.
  intro H. induction H as [| x t Hx Ht IH]; intro inRun; cbn [splitRuns].
  - constructor; constructor.
  - destruct (isWhiteSpace x) eqn:Hws.
    + destruct inRun; [apply IH |].
      constructor; [constructor | apply IH].
    + specialize (IH false).
      destruct (splitRuns false t) as [| l ls].
      * constructor; [| constructor].
        constructor; [split; assumption | constructor].
      * inversion IH as [| l' ls' Hl Hls]; subst.
        constructor; [| exact Hls].
        constructor; [split; assumption | exact Hl].
Qed.

Lemma blankPunctuation_chars (s : jsstring) :
  Forall (fun c => isWordChar c = true \/ isWhiteSpace c = true)
    (blankPunctuation s).
Proof.
  unfold blankPunctuation. apply Forall_map, Forall_forall. intros c _.
  destruct (isWordChar c) eqn:Hw; simpl.
  - left. exact Hw.
  - destruct (isWhiteSpace c) eqn:Hs; right; [exact Hs | reflexivity].
Qed.

(** X17.  Every token has more than two characters, all of them word
    characters. *)
Theorem tokenize_tokens (text : jsstring) :
  Forall (fun w => 2 < List.length w
                   /\ Forall (fun c => isWordChar c = true) w)
    (tokenize text).
Proof.
  unfold tokenize. apply Forall_forall. intros w Hw.
  apply filter_In in Hw. destruct Hw as [Hin Hlen].
  split; [apply Nat.ltb_lt; exact Hlen |].
  pose proof (splitRuns_pieces _ _
                (blankPunctuation_chars (toLowerCase text)) false) as H.
  rewrite Forall_forall in H. specialize (H w Hin).
  eapply Forall_impl; [| exact H]. cbv beta.
  intros c [[Hc | Hc] Hws]; [exact Hc |].
  rewrite Hc in Hws. discriminate Hws.
Qed.

Lemma ratio_nonneg (a b : nat) : (0 <= ratio a b)%Q.
Proof.
  unfold ratio, Qdiv. apply Qmult_le_0_compat.
  - change 0%Q with (inject_Z 0). rewrite <- Zle_Qle. lia.
  - apply Qinv_le_0_compat.
    change 0%Q with (inject_Z 0). rewrite <- Zle_Qle. lia.
Qed.

Lemma exactMatchBoost_nonneg (nlq1 nlq2 : jsstring) :
  (0 <= exactMatchBoost nlq1 nlq2)%Q.
Proof.
  unfold exactMatchBoost.
  destruct (includes (toLowerCase nlq1) (toLowerCase nlq2)
            || includes (toLowerCase nlq2) (toLowerCase nlq1));
    vm_compute; discriminate.
Qed.

(** X18.  The similarity of two questions lies between 0 and 1. *)
Theorem computeSimilarity_bounds (nlq1 nlq2 : jsstring) :
  (0 <= computeSimilarity nlq1 nlq2)%Q /\ (computeSimilarity nlq1 nlq2 <= 1)%Q.
Proof.
  unfold computeSimilarity. cbv zeta.
  destruct (List.length (dedup (tokenize nlq1 ++ tokenize nlq2)) =? 0).
  - split; vm_compute; discriminate.
  - split; [| apply Q.le_min_l].
    apply Q.min_glb; [vm_compute; discriminate |].
    rewrite <- (Qplus_0_r 0). apply Qplus_le_compat.
    + apply ratio_nonneg.
    + apply exactMatchBoost_nonneg.
Qed.

Lemma filter_all {A : Type} (f : A -> bool) (l : list A) :
  (forall x, In x l -> f x = true) -> filter f l = l.
Proof.
  induction l as [| x t IH]; intro H; [reflexivity |].
  simpl. rewrite (H x) by (left; reflexivity). f_equal.
  apply IH. intros y Hy. apply H. right. exact Hy.
Qed.

Lemma ratio_ge_1 (a b : nat) : 0 < b -> b <= a -> (1 <= ratio a b)%Q.
Proof.
  intros Hb Hab. unfold ratio. apply Qle_shift_div_l.
  - change 0%Q with (inject_Z 0). rewrite <- Zlt_Qlt. lia.
  - rewrite Qmult_1_l. rewrite <- Zle_Qle. lia.
Qed.

(** X19.  A question is as similar to itself as can be: the score is 1 when it
    has a token, and 0 when it has none. *)
Theorem computeSimilarity_self (nlq : jsstring) :
  (tokenize nlq <> [] -> (computeSimilarity nlq nlq == 1)%Q)
  /\ (tokenize nlq = [] -> (computeSimilarity nlq nlq == 0)%Q).
Proof.
  unfold computeSimilarity. cbv zeta. split; intro H.
  - destruct (List.length (dedup (tokenize nlq ++ tokenize nlq)) =? 0)
      eqn:Hu.
    + exfalso. apply Nat.eqb_eq in Hu. apply length_zero_iff_nil in Hu.
      destruct (tokenize nlq) as [| w ws]; [contradiction |].
      assert (Hin : In w (dedup ((w :: ws) ++ w :: ws)))
        by (apply dedup_In; left; reflexivity).
      rewrite Hu in Hin. contradiction.
    + apply Nat.eqb_neq in Hu. apply Q.min_l.
      rewrite <- (Qplus_0_r 1). apply Qplus_le_compat;
        [| apply exactMatchBoost_nonneg].
      apply ratio_ge_1; [lia |].
      rewrite filter_all by (intros x Hx; apply member_In; exact Hx).
      apply NoDup_incl_length; [apply dedup_NoDup |].
      intros x Hx. apply (proj1 (dedup_In _ _)) in Hx.
      apply in_app_or in Hx. tauto.
  - rewrite H. reflexivity.
Qed.

Lemma insertSorted_byScoreDesc_Q {T : Type} (x : Scored T Q)
  (l : list (Scored T Q)) :
  StronglySorted (fun a b => (score b <= score a)%Q) l ->
  StronglySorted (fun a b => (score b <= score a)%Q)
    (insertSorted byScoreDesc x l).
Proof.
  induction l as [| y t IH]; intro Hs; simpl.
  - constructor; [constructor | constructor].
  - inversion Hs as [| y' t' Hst Hall]; subst.
    unfold byScoreDesc at 1.
    destruct (Qcompare_spec (score y - score x) 0) as [Hc | Hc | Hc].
    + constructor; [exact Hs |]. constructor; [cbv beta; lra |].
      eapply Forall_impl; [| exact Hall]. cbv beta. intros a Ha. lra.
    + constructor; [exact Hs |]. constructor; [cbv beta; lra |].
      eapply Forall_impl; [| exact Hall]. cbv beta. intros a Ha. lra.
    + constructor; [apply IH; exact Hst |].
      eapply Permutation_Forall; [apply insertSorted_perm |].
      constructor; [cbv beta; lra | exact Hall].
Qed.

Lemma stableSort_byScoreDesc_Q {T : Type} (l : list (Scored T Q)) :
  StronglySorted (fun a b => (score b <= score a)%Q)
    (stableSort byScoreDesc l).
Proof.
  unfold stableSort. induction l as [| x t IH]; simpl.
  - constructor.
  - apply insertSorted_byScoreDesc_Q. exact IH.
Qed.

(** The candidates of [selectExamples]. *)
Lemma selectExamples_scored (examples : list Example.t) (nlq : jsstring)
  (database : option jsstring) (k : nat) :
  exists candidates,
    selectExamples examples nlq database k
    = map (@item _ _)
        (slice0 k
           (stableSort byScoreDesc
              (map (fun example =>
                      mkScored example
                        (computeSimilarity nlq (Example.nlq example)))
                 candidates)))
    /\ (forall ex, In ex candidates -> In ex examples)
    /\ (forall d, database = Some d -> truthy d = true ->
                  forall ex, In ex candidates <->
                             In ex examples /\ Example.database ex = d)
    /\ (database = None -> candidates = examples).
Proof.
  unfold selectExamples. cbv zeta.
  destruct database as [d |]; [destruct (truthy d) eqn:Ht |].
  - exists (filter (fun ex => JSString.eqb (Example.database ex) d) examples).
    split; [reflexivity |]. split; [| split].
    + intros ex H. apply filter_In in H. apply H.
    + intros d' Hd _ ex. injection Hd as <-.
      rewrite filter_In, eqb_eq. tauto.
    + intro H. discriminate H.
  - exists examples. split; [reflexivity |]. split; [tauto | split].
    + intros d' Hd Ht'. injection Hd as <-. rewrite Ht in Ht'.
      discriminate Ht'.
    + intro H. discriminate H.
  - exists examples. split; [reflexivity |]. split; [tauto | split].
    + intros d' Hd. discriminate Hd.
    + reflexivity.
Qed.

Lemma scored_sorted_items (nlq : jsstring) (l : list (Scored Example.t Q)) :
  (forall m, In m l ->
             score m = computeSimilarity nlq (Example.nlq (item m))) ->
  StronglySorted (fun a b => (score b <= score a)%Q) l ->
  StronglySorted
    (fun a b => (computeSimilarity nlq (Example.nlq b)
                 <= computeSimilarity nlq (Example.nlq a))%Q)
    (map (@item _ _) l).
Proof.
  intros Hscore Hs.
  apply (StronglySorted_map (fun a b => (score b <= score a)%Q)); [| exact Hs].
  intros a b Ha Hb Hab. rewrite <- (Hscore a Ha), <- (Hscore b Hb). exact Hab.
Qed.

Lemma scored_candidates (nlq : jsstring) (candidates : list Example.t)
  (k : nat) (m : Scored Example.t Q) :
  In m (slice0 k
          (stableSort byScoreDesc
             (map (fun example =>
                     mkScored example
                       (computeSimilarity nlq (Example.nlq example)))
                candidates))) ->
  In (item m) candidates
  /\ score m = computeSimilarity nlq (Example.nlq (item m)).
Proof.
  intro H. apply slice0_In in H. apply stableSort_In in H.
  apply in_map_iff in H. destruct H as [ex [<- Hex]].
  split; [exact Hex | reflexivity].
Qed.

(** X21.  [selectExamples] returns at most [k] examples, all of the corpus, in
    the order of their similarity to the question, highest first; when a
    database is named, all of them belong to it. *)
Theorem selectExamples_contract (examples : list Example.t) (nlq : jsstring)
  (database : option jsstring) (k : nat) :
  List.length (selectExamples examples nlq database k) <= k
  /\ Forall (fun ex => In ex examples) (selectExamples examples nlq database k)
  /\ StronglySorted
       (fun a b => (computeSimilarity nlq (Example.nlq b)
                    <= computeSimilarity nlq (Example.nlq a))%Q)
       (selectExamples examples nlq database k)
  /\ match database with
     | Some d =>
         truthy d = true ->
         Forall (fun ex => Example.database ex = d)
           (selectExamples examples nlq database k)
     | None => True
     end.
Proof.
  destruct (selectExamples_scored examples nlq database k)
    as [candidates [Heq [Hsub [Hdb _]]]].
  rewrite Heq. split; [rewrite length_map; apply slice0_length |].
  split; [| split].
  - apply Forall_map, Forall_forall. intros m Hm.
    apply scored_candidates in Hm. apply Hsub. apply Hm.
  - apply scored_sorted_items.
    + intros m Hm. apply scored_candidates in Hm. apply Hm.
    + unfold slice0.
      apply (StronglySorted_prefix _ _
               (skipn k (stableSort byScoreDesc
                  (map (fun example =>
                          mkScored example
                            (computeSimilarity nlq (Example.nlq example)))
                     candidates)))).
      rewrite firstn_skipn. apply stableSort_byScoreDesc_Q.
  - destruct database as [d |]; [| exact I].
    intro Ht. apply Forall_map, Forall_forall. intros m Hm.
    apply scored_candidates in Hm. destruct Hm as [Hm _].
    apply (Hdb d eq_refl Ht) in Hm. apply Hm.
Qed.

(** X22.  With no database named and [k] at least the size of the corpus,
    [selectExamples] returns every example of the corpus, once each. *)
Theorem selectExamples_whole_corpus (examples : list Example.t)
  (nlq : jsstring) (k : nat) :
  List.length examples <= k ->
  Permutation (selectExamples examples nlq None k) examples.
Proof.
  intro Hk. unfold selectExamples. cbv zeta. unfold slice0.
  rewrite firstn_all2.
  - apply Permutation_sym.
    eapply perm_trans;
      [| apply Permutation_map; apply stableSort_perm].
    rewrite map_map. cbn [item]. rewrite map_id. apply Permutation_refl.
  - rewrite <- (Permutation_length (stableSort_perm _ _)).
    rewrite length_map. exact Hk.
Qed.

Lemma selectExamples_eligible (examples : list Example.t) (nlq : jsstring)
  (database : option jsstring) (k : nat) :
  selectExamples examples nlq database k
  = map (@item _ _)
      (slice0 k
         (stableSort byScoreDesc
            (map (fun example =>
                    mkScored example
                      (computeSimilarity nlq (Example.nlq example)))
               (filter (Steps.eligible database) examples)))).
Proof.
  unfold selectExamples, Steps.eligible. cbv zeta.
  destruct database as [d |]; [destruct (truthy d) |];
    try reflexivity;
    rewrite (filter_all (fun _ => true) examples) by reflexivity;
    reflexivity.
Qed.

(** X23.  The selection is a correct top [k]: an example that is a candidate
    (any example when no database is named, an example of the database
    otherwise) is returned, unless [k] examples are returned and each is at
    least as similar to the question. *)
Theorem selectExamples_top_k (examples : list Example.t) (nlq : jsstring)
  (database : option jsstring) (k : nat) :
  Forall
    (fun ex =>
       Steps.eligible database ex = true ->
       In ex (selectExamples examples nlq database k)
       \/ (List.length (selectExamples examples nlq database k) = k
           /\ Forall
                (fun r => (computeSimilarity nlq (Example.nlq ex)
                           <= computeSimilarity nlq (Example.nlq r))%Q)
                (selectExamples examples nlq database k)))
    examples.
Proof.
  apply Forall_forall. intros ex Hex Hel.
  rewrite selectExamples_eligible. unfold slice0.
  set (scored := map (fun example =>
                        mkScored example
                          (computeSimilarity nlq (Example.nlq example)))
                   (filter (Steps.eligible database) examples)).
  assert (Hm : In (mkScored ex (computeSimilarity nlq (Example.nlq ex)))
                 (stableSort byScoreDesc scored)).
  { eapply Permutation_in; [apply stableSort_perm |].
    unfold scored. apply in_map_iff. exists ex.
    split; [reflexivity |]. apply filter_In. split; assumption. }
  pose proof (stableSort_byScoreDesc_Q scored) as Hs.
  rewrite <- (firstn_skipn k (stableSort byScoreDesc scored)) in Hm, Hs.
  apply in_app_or in Hm. destruct Hm as [Hm | Hm].
  - left. apply in_map_iff.
    exists (mkScored ex (computeSimilarity nlq (Example.nlq ex))).
    split; [reflexivity | exact Hm].
  - right. split.
    + rewrite length_map, length_firstn. apply Nat.min_l.
      destruct (Nat.le_gt_cases k
                  (List.length (stableSort byScoreDesc scored)))
        as [Hle | Hgt]; [exact Hle |].
      rewrite skipn_all2 in Hm by lia. contradiction.
    + apply Forall_map, Forall_forall. intros r Hr.
      pose proof (StronglySorted_app_order _ _ _ Hs r _ Hr Hm) as Hle.
      cbn [score] in Hle.
      assert (Hrs : In r (stableSort byScoreDesc scored)).
      { rewrite <- (firstn_skipn k (stableSort byScoreDesc scored)).
        apply in_or_app. left. exact Hr. }
      apply stableSort_In in Hrs. unfold scored in Hrs.
      apply in_map_iff in Hrs. destruct Hrs as [e [<- _]]. exact Hle.
Qed.

End SelectorFacts.

(* ================================================================== *)
(** * Theorems: a conversion that succeeds *)
(* ================================================================== *)

Section ConversionFacts.
Context {rt : Runtime}.
Import NL2KQLEngine.

(** X25.  When the generation call returns, [convert] on the engine that the
    constructor builds returns a response with no error message; its query
    text is trimmed; it counts at most 3 attempts, and exactly 3 when
    [success] is false; it counts at most 3 examples, at most 5 table names
    and 20 column names; the confidence is 0.9 for a success and 0.7
    otherwise, and the response time is the difference of the two readings
    of the clock. *)
Theorem convert_success
  (llm : jsstring -> QueryRefiner.SchemaNames -> list (jsstring * jsstring) ->
         outcome LLMResponse)
  (corpus : list Example.t) (schema : option DatabaseSchema.t)
  (request : NL2KQLRequest) (w : World) (llmResponse : LLMResponse) :
  llm (query request)
    (namesOf (SchemaRefiner.refineSchema (query request)
                (defaultSchema (newEngine llm corpus schema))))
    (map (fun ex => (Example.nlq ex, Example.kql ex))
       (FewShotSelector.selectExamples corpus (query request)
          (database request) 3))
  = Returns llmResponse ->
  exists text names used attempts,
    convert (newEngine llm corpus schema) request w
    = (Returns
         {| success := negb (attempts =? 3);
            kql := Some text;
            error := None;
            refinedSchema := Some names;
            examplesUsed := Some used;
            refinements := Some attempts;
            metadata :=
              Some {| tokensUsed := llmTokensUsed llmResponse;
                      responseTime :=
                        Some (clock w (S (reads w)) - clock w (reads w))%Z;
                      confidence :=
                        Some (if negb (attempts =? 3)
                              then (9 # 10)%Q else (7 # 10)%Q) |} |},
       tick (tick w))
    /\ trim text = text
    /\ attempts <= 3
    /\ used <= 3
    /\ List.length (QueryRefiner.tables names) <= 5
    /\ List.length (QueryRefiner.columns names) <= 20.
Proof.
  intro Hllm.
  set (refined := SchemaRefiner.refineSchema (query request)
                    (defaultSchema (newEngine llm corpus schema))) in *.
  set (examples := FewShotSelector.selectExamples corpus (query request)
                     (database request) 3) in *.
  set (result := QueryRefiner.refineQuery (content llmResponse)
                   (Some (namesOf refined))).
  exists (QueryRefiner.query result), (namesOf refined),
    (List.length examples), (QueryRefiner.attempts result).
  assert (Hverdict : QueryRefiner.isValid result
                     = negb (QueryRefiner.attempts result =? 3)).
  { destruct (refineLoop_verdict QueryRefiner.maxAttempts
                (Some (namesOf refined)) (trim (content llmResponse)) 0 [] []
                eq_refl) as [Hiff _].
    - intro H. inversion H.
    - fold (QueryRefiner.refineQuery (content llmResponse)
              (Some (namesOf refined))) in Hiff. fold result in Hiff.
      destruct (QueryRefiner.isValid result) eqn:Hv.
      + destruct (QueryRefiner.attempts result =? 3) eqn:Ha; [| reflexivity].
        apply Nat.eqb_eq in Ha. apply Hiff in Ha. discriminate Ha.
      + rewrite (proj1 Hiff eq_refl). reflexivity. }
  split; [| split; [| split; [| split; [| split]]]].
  - unfold convert, bind, tryCatch, call, dateNow, ret.
    cbn [newEngine schemaRefiner fewShotSelector queryRefiner llmClient].
    fold refined. fold examples. rewrite Hllm. fold result.
    rewrite Hverdict. reflexivity.
  - apply Trimmed_trim. unfold result, QueryRefiner.refineQuery.
    apply refineLoop_Trimmed. apply trim_Trimmed.
  - apply (refineLoop_attempts QueryRefiner.maxAttempts
             (Some (namesOf refined)) (trim (content llmResponse)) 0 [] []).
  - unfold examples, FewShotSelector.selectExamples. cbv zeta.
    rewrite length_map. apply slice0_length.
  - unfold namesOf, refined, SchemaRefiner.refineSchema.
    cbn [QueryRefiner.tables RefinedSchema.tables]. rewrite !length_map.
    apply slice0_length.
  - unfold namesOf, refined, SchemaRefiner.refineSchema.
    cbn [QueryRefiner.columns RefinedSchema.columns]. rewrite !length_map.
    apply slice0_length.
Qed.

End ConversionFacts.

(** A client that returns the query of the specification's scenario: the
    theorem applies. *)
Lemma convert_success_example :
  Inputs.answeringClient (NL2KQLEngine.query Inputs.lastHourRequest)
    (NL2KQLEngine.namesOf
       (@SchemaRefiner.refineSchema asciiRuntime
          (NL2KQLEngine.query Inputs.lastHourRequest)
          (NL2KQLEngine.defaultSchema Inputs.answeringEngine)))
    (map (fun ex => (Example.nlq ex, Example.kql ex))
       (@FewShotSelector.selectExamples asciiRuntime
          FewShotSelector.defaultExamples
          (NL2KQLEngine.query Inputs.lastHourRequest)
          (NL2KQLEngine.database Inputs.lastHourRequest) 3))
  = NL2KQLEngine.Returns Inputs.unclosedAnswer
  /\ exists text names used attempts,
       NL2KQLEngine.convert Inputs.answeringEngine Inputs.lastHourRequest
         Inputs.steadyClock
       = (NL2KQLEngine.Returns
            (NL2KQLEngine.mkResponse (negb (attempts =? 3)) (Some text) None
               (Some names) (Some used) (Some attempts)
               (Some (NL2KQLEngine.mkMetadata
                        (NL2KQLEngine.llmTokensUsed Inputs.unclosedAnswer)
                        (Some (NL2KQLEngine.clock Inputs.steadyClock 1
                               - NL2KQLEngine.clock Inputs.steadyClock 0)%Z)
                        (Some (if negb (attempts =? 3)
                               then (9 # 10)%Q else (7 # 10)%Q))))),
          NL2KQLEngine.tick (NL2KQLEngine.tick Inputs.steadyClock))
       /\ trim text = text
       /\ attempts <= 3
       /\ used <= 3
       /\ List.length (QueryRefiner.tables names) <= 5
       /\ List.length (QueryRefiner.columns names) <= 20.
Proof.
  split; [reflexivity |].
  exact (@convert_success asciiRuntime Inputs.answeringClient
           FewShotSelector.defaultExamples None Inputs.lastHourRequest
           Inputs.steadyClock Inputs.unclosedAnswer eq_refl).
Defined.

(** The corpus of the constructor, asked for as many examples as it
    holds. *)
Lemma selectExamples_whole_corpus_example :
  List.length FewShotSelector.defaultExamples <= 8
  /\ Permutation
       (@FewShotSelector.selectExamples asciiRuntime
          FewShotSelector.defaultExamples
          (NL2KQLEngine.query Inputs.lastHourRequest) None 8)
       FewShotSelector.defaultExamples.
Proof.
  assert (H : List.length FewShotSelector.defaultExamples <= 8).
  { apply Nat.le_refl. }
  split; [exact H |].
  exact (@selectExamples_whole_corpus asciiRuntime
           FewShotSelector.defaultExamples
           (NL2KQLEngine.query Inputs.lastHourRequest) 8 H).
Defined.

(** A question whose tokens do not repeat. *)
Lemma computeSimilarity_without_repeats_example :
  NoDup (@FewShotSelector.tokenize asciiRuntime Inputs.otherQuestion)
  /\ @FewShotSelector.computeSimilarity asciiRuntime
       Inputs.otherQuestion Inputs.repeatingQuestion
     = @FewShotSelector.similaritySpec asciiRuntime
         Inputs.otherQuestion Inputs.repeatingQuestion.
Proof.
  assert (H : NoDup (@FewShotSelector.tokenize asciiRuntime
                       Inputs.otherQuestion)).
  { vm_compute.
    repeat (constructor; [simpl; intuition discriminate |]).
    constructor. }
  split; [exact H |].
  exact (@computeSimilarity_without_repeats asciiRuntime
           Inputs.otherQuestion Inputs.repeatingQuestion H).
Defined.

(* ================================================================== *)
(** * Theorems: when one repair is enough *)
(* ================================================================== *)

Section OneRepairEnough.
Context {rt : Runtime}.
Import QueryRefiner Steps.

Lemma replaceFrom_absent (pat rep : jsstring) (s : jsstring) :
  includes s pat = false -> replaceFrom pat rep 0 s = s.
Proof.
  induction s as [| x t IH]; intro H; [reflexivity |].
  cbn [includes] in H. apply orb_false_iff in H. destruct H as [Hsw Ht].
  cbn [replaceFrom]. rewrite Hsw, (IH Ht). reflexivity.
Qed.

Lemma includes_part (p a l b : jsstring) :
  includes l p = true -> includes (a ++ l ++ b) p = true.
Proof.
  intro H. apply includes_occurs in H. destruct H as [x [y H]]. subst l.
  apply includes_occurs. exists (a ++ x), (y ++ b).
  rewrite <- !app_assoc. reflexivity.
Qed.

Lemma trim_part (l : jsstring) : exists a b, l = a ++ trim l ++ b.
Proof.
  unfold trim.
  destruct (dropWhile_suffix isWhiteSpace l) as [a Ha].
  destruct (dropWhile_suffix isWhiteSpace (rev (dropWhile isWhiteSpace l)))
    as [b Hb].
  exists a, (rev b).
  rewrite <- rev_app_distr, <- Hb, rev_involutive. exact Ha.
Qed.

Lemma includes_trim (p l : jsstring) :
  includes (trim l) p = true -> includes l p = true.
Proof.
  intro H. destruct (trim_part l) as [a [b Hl]]. rewrite Hl.
  apply includes_part. exact H.
Qed.

Lemma includes_nil (p : jsstring) : p <> [] -> includes [] p = false.
Proof. destruct p; [contradiction | reflexivity]. Qed.

Lemma includes_repeat (p s : jsstring) (c : N) (n : nat) :
  p <> [] -> ~ In c p ->
  includes (s ++ repeat c n) p = true -> includes s p = true.
Proof.
  intros Hne Hc. induction n as [| n IH]; intro H.
  - simpl in H. rewrite app_nil_r in H. exact H.
  - apply IH. cbn [repeat] in H. rewrite repeat_cons, app_assoc in H.
    apply (includes_across c _ _ _ Hc) in H. destruct H as [H | H];
      [exact H |].
    rewrite (includes_nil p Hne) in H. discriminate H.
Qed.

Lemma split_first (s : jsstring) :
  forall l ls, split newline s = l :: ls -> exists r, s = l ++ r.
Proof.
  induction s as [| x t IH]; intros l ls H; cbn [split] in H.
  - injection H as <- _. exists []. reflexivity.
  - destruct (N.eqb x newline).
    + injection H as <- _. exists (x :: t). reflexivity.
    + destruct (split newline t) as [| l1 ls1] eqn:Hs.
      * exfalso. apply (split_not_nil newline t Hs).
      * injection H as <- _. destruct (IH l1 ls1 eq_refl) as [r Hr].
        exists r. rewrite Hr. reflexivity.
Qed.

Lemma split_part (s : jsstring) :
  forall l, In l (split newline s) -> exists a b, s = a ++ l ++ b.
Proof.
  induction s as [| x t IH]; intros l Hl; cbn [split] in Hl.
  - destruct Hl as [<- | []]. exists [], []. reflexivity.
  - destruct (N.eqb x newline).
    + destruct Hl as [<- | Hl].
      * exists [], (x :: t). reflexivity.
      * destruct (IH l Hl) as [a [b H]]. exists (x :: a), b.
        rewrite H. reflexivity.
    + destruct (split newline t) as [| l0 ls] eqn:Hsp.
      * exfalso. apply (split_not_nil newline t Hsp).
      * destruct Hl as [<- | Hl].
        -- destruct (split_first t l0 ls Hsp) as [r Hr].
           exists [], r. rewrite Hr. reflexivity.
        -- destruct (IH l (or_intror Hl)) as [a [b H]].
           exists (x :: a), b. rewrite H. reflexivity.
Qed.

Lemma includes_join (p : jsstring) (ls : list jsstring) :
  p <> [] -> ~ In newline p ->
  includes (join [newline] ls) p = true ->
  exists l, In l ls /\ includes l p = true.
Proof.
  intros Hne Hnl. induction ls as [| l rest IH]; intro H.
  - cbn [join] in H. rewrite (includes_nil p Hne) in H. discriminate H.
  - destruct rest as [| l' rest'].
    + exists l. split; [left; reflexivity | exact H].
    + change (join [newline] (l :: l' :: rest'))
        with (l ++ newline :: join [newline] (l' :: rest')) in H.
      apply (includes_across newline _ _ _ Hnl) in H.
      destruct H as [H | H].
      * exists l. split; [left; reflexivity | exact H].
      * destruct (IH H) as [x [Hx Hp]]. exists x.
        split; [right; exact Hx | exact Hp].
Qed.

Lemma mapiFrom_In {A B : Type} (f : nat -> A -> B) (l : list A) :
  forall i y, In y (mapiFrom f i l) -> exists j x, In x l /\ y = f j x.
Proof.
  induction l as [| x t IH]; intros i y H; [contradiction |].
  destruct H as [<- | H].
  - exists i, x. split; [left; reflexivity | reflexivity].
  - destruct (IH _ _ H) as [j [z [Hz Hy]]]. exists j, z.
    split; [right; exact Hz | exact Hy].
Qed.

Lemma includes_fixLine (p : jsstring) (index : nat) (line : jsstring) :
  p <> [] -> ~ In pipe p -> ~ In 32%N p ->
  includes (fixLine index line) p = true -> includes line p = true.
Proof.
  intros Hne Hpipe Hsp H. unfold fixLine in H.
  destruct (index =? 0); [exact H |]. cbv zeta in H.
  destruct (lacksPipe (trim line)); [| exact H].
  change (js "| " ++ trim line) with ([] ++ pipe :: ([] ++ 32%N :: trim line))
    in H.
  apply (includes_across pipe _ _ _ Hpipe) in H. destruct H as [H | H];
    [rewrite (includes_nil p Hne) in H; discriminate H |].
  apply (includes_across 32%N _ _ _ Hsp) in H. destruct H as [H | H];
    [rewrite (includes_nil p Hne) in H; discriminate H |].
  apply includes_trim. exact H.
Qed.

Lemma includes_fixLines (p s : jsstring) :
  p <> [] -> ~ In newline p -> ~ In pipe p -> ~ In 32%N p ->
  includes (join [newline] (mapi fixLine (split newline s))) p = true ->
  includes s p = true.
Proof.
  intros Hne Hnl Hpipe Hsp H.
  apply (includes_join p _ Hne Hnl) in H. destruct H as [l' [Hl' Hp]].
  unfold mapi in Hl'. apply mapiFrom_In in Hl'.
  destruct Hl' as [j [l [Hl ->]]].
  apply (includes_fixLine p j l Hne Hpipe Hsp) in Hp.
  destruct (split_part s l Hl) as [a [b Hs]]. rewrite Hs.
  apply includes_part. exact Hp.
Qed.

Lemma includes_closeMissing (p : jsstring) (opener closer : N)
  (s : jsstring) :
  p <> [] -> ~ In closer p ->
  includes (closeMissing opener closer s) p = true -> includes s p = true.
Proof.
  intros Hne Hc. unfold closeMissing.
  destruct (countChar closer s <? countChar opener s); [| tauto].
  apply includes_repeat; assumption.
Qed.

Lemma includes_closeQuote (p : jsstring) (quote : N) (s : jsstring) :
  p <> [] -> ~ In quote p ->
  includes (closeQuote quote s) p = true -> includes s p = true.
Proof.
  intros Hne Hc. unfold closeQuote.
  destruct (negb (countChar quote s mod 2 =? 0)); [| tauto].
  apply (includes_repeat p s quote 1); assumption.
Qed.

(** One repair brings no strict (in)equality into a text that has none. *)
Lemma strict_absent_after_repair (q : jsstring) (errors : list jsstring) :
  includes q (js "===") = false -> includes q (js "!==") = false ->
  includes (fixSyntaxErrors q errors) (js "===")
  || includes (fixSyntaxErrors q errors) (js "!==") = false.
Proof.
  intros H3 Hb. rewrite fixSyntaxErrors_steps. unfold beforeLines.
  unfold replaceAll.
  rewrite (replaceFrom_absent (js "===") (js "==") q H3).
  rewrite (replaceFrom_absent (js "!==") (js "!=") q Hb).
  apply orb_false_iff. split.
  - match goal with |- ?x = false => destruct x eqn:H end; [| reflexivity].
    apply includes_fixLines in H;
      try (vm_compute; intuition discriminate).
    repeat (first [ apply includes_closeQuote in H
                  | apply includes_closeMissing in H ];
            try (vm_compute; intuition discriminate)).
    rewrite H in H3. discriminate H3.
  - match goal with |- ?x = false => destruct x eqn:H end; [| reflexivity].
    apply includes_fixLines in H;
      try (vm_compute; intuition discriminate).
    repeat (first [ apply includes_closeQuote in H
                  | apply includes_closeMissing in H ];
            try (vm_compute; intuition discriminate)).
    rewrite H in Hb. discriminate Hb.
Qed.

Lemma pushIf_false (e : jsstring) (l : list jsstring) : pushIf false e l = l.
Proof. reflexivity. Qed.

(** The repair of a text without closers in excess and without strict
    (in)equality passes the checker. *)
Lemma validateSyntax_after_repair (q : jsstring) (errors : list jsstring) :
  ~ excess q ->
  includes q (js "===") = false -> includes q (js "!==") = false ->
  validateSyntax (fixSyntaxErrors q errors) = [].
Proof.
  intros Hex H3 Hb.
  destruct (quotes_even_after_repair q errors) as [Hs Hd].
  destruct (repair_counts q errors) as [H1 [H2 [H4 H5]]].
  pose proof (pipeErrors_after_fixLines (beforeLines q)) as Hp.
  rewrite <- (fixSyntaxErrors_steps q errors) in Hp.
  pose proof (strict_absent_after_repair q errors H3 Hb) as Hstrict.
  unfold validateSyntax. cbv zeta.
  rewrite Hp, app_nil_r, Hs, Hd, Hstrict, H1, H2, H4, H5.
  unfold excess in Hex.
  replace (Nat.max (countChar lparen q) (countChar rparen q))
    with (countChar lparen q) by lia.
  replace (Nat.max (countChar lbracket q) (countChar rbracket q))
    with (countChar lbracket q) by lia.
  rewrite !Nat.eqb_refl. reflexivity.
Qed.

(** X4.  A query that has no strict (in)equality and no closing parenthesis or
    bracket in excess is repaired by the first attempt, if it needs one:
    the result is valid after at most one attempt. *)
Theorem refineQuery_one_repair (kql : jsstring)
  (schema : option SchemaNames) :
  ~ excess kql ->
  includes kql (js "===") = false -> includes kql (js "!==") = false ->
  isValid (refineQuery kql schema) = true
  /\ attempts (refineQuery kql schema) <= 1.
Proof.
  intros Hex H3 Hb.
  assert (Hex' : ~ excess (trim kql)).
  { unfold excess in *. rewrite !countChar_trim; try reflexivity. exact Hex. }
  assert (H3' : includes (trim kql) (js "===") = false).
  { destruct (includes (trim kql) (js "===")) eqn:H; [| reflexivity].
    apply includes_trim in H. rewrite H in H3. discriminate H3. }
  assert (Hb' : includes (trim kql) (js "!==") = false).
  { destruct (includes (trim kql) (js "!==")) eqn:H; [| reflexivity].
    apply includes_trim in H. rewrite H in Hb. discriminate Hb. }
  unfold refineQuery, maxAttempts. rewrite refineLoop_step.
  destruct (0 <? List.length (validateSyntax (trim kql))).
  - rewrite refineLoop_step.
    rewrite (validateSyntax_after_repair (trim kql) _ Hex' H3' Hb').
    cbn. split; [reflexivity | lia].
  - cbn. split; [reflexivity | lia].
Qed.

End OneRepairEnough.

(** The specification's scenario has an opening parenthesis too many and
    no strict (in)equality: the theorem applies. *)
Lemma refineQuery_one_repair_example :
  ~ Steps.excess Inputs.unclosedCall
  /\ includes Inputs.unclosedCall (js "===") = false
  /\ includes Inputs.unclosedCall (js "!==") = false
  /\ QueryRefiner.isValid
       (@QueryRefiner.refineQuery asciiRuntime Inputs.unclosedCall None)
     = true
  /\ QueryRefiner.attempts
       (@QueryRefiner.refineQuery asciiRuntime Inputs.unclosedCall None) <= 1.
Proof.
  assert (H : ~ Steps.excess Inputs.unclosedCall).
  { unfold Steps.excess. vm_compute. lia. }
  split; [exact H |]. split; [reflexivity |]. split; [reflexivity |].
  exact (@refineQuery_one_repair asciiRuntime Inputs.unclosedCall None H
           eq_refl eq_refl).
Defined.
